(** * Spherical-Earth acoustic ray geometry

    A verification development for [scripts/sphere/spherical_earth_acoustic.py]:
    the surface-intersection solver [calculate_surface_intersection] and the
    ray depth-profile sampler [calculate_ray_depth_profile].

    Beside them: the decisions of the script's [main], the subplot grid of
    [scripts/plot_pe_comparison.py] (module [PeComparison]), the write loop
    of [scripts/genpi/pi_precision_test.py] (module [PiPrecision]) and the
    file names of [rename_ram_in_files.py] (module [RenameRam]).

    Numbers.  The program computes on binary64 floats through numpy.  Two
    readings of the acoustic code are given.  The first, used for most
    results, is over the reals.  The second, module [B64], is the same code
    over binary64 with the kernel's primitive floats; it decides what rounding
    decides (two depths that round to one source radius, a depth smaller
    than the spacing of the floats).  In the first reading a
    float is idealised as a real number ([R]) and each numpy primitive as the
    real function it approximates: [np.cos] as [cos], [np.sin] as [sin],
    [np.arccos] as [acos], [np.sqrt] as [sqrt], [np.arctan2] as the
    two-argument arctangent [arctan2] defined below.  Rounding, NaN,
    infinities and signed zeros are outside that reading; a theorem stated
    over [R] is a statement about the exact real-number semantics of the
    source text. *)

From Stdlib Require Import Floats.
From Stdlib Require Import String Ascii DecimalString.
From Stdlib Require QArith_base.
From Stdlib Require Import Reals Lra Lia List ZArith Bool.
From Stdlib Require Import Machin.
Import ListNotations.

Set Warnings "-inexact-float".

Open Scope R_scope.

(** ** Python results *)

(** The only exception the modelled code can raise is numpy's [ValueError]
    (a negative sample count in [np.linspace], an empty array in
    [np.argmax]). *)
Inductive exn : Type :=
| ValueError.

Inductive pyresult (A : Type) : Type :=
| Returns (a : A)
| Raises (e : exn).

Arguments Returns {A} a.
Arguments Raises {A} e.

(** ** Comparisons as booleans *)

(** Python's [<] and [<=] on floats, as boolean tests on reals. *)
Definition Rltb (x y : R) : bool := if Rlt_dec x y then true else false.
Definition Rleb (x y : R) : bool := if Rle_dec x y then true else false.

Infix "<?" := Rltb : R_scope.
Infix "<=?" := Rleb : R_scope.

(** ** numpy primitives over the reals *)

Module Np.

(** [np.arctan2(y, x)]: the polar angle of the point (x, y), in (-PI, PI]. *)
Definition arctan2 (y x : R) : R :=
  if 0 <? x then atan (y / x)
  else if x <? 0 then
    if 0 <=? y then atan (y / x) + PI else atan (y / x) - PI
  else
    if 0 <? y then PI / 2
    else if y <? 0 then - (PI / 2)
    else 0.

(** [np.linspace(start, stop, num)] for [num >= 0], endpoint included:
    [step = (stop - start) / (num - 1)] and sample [i] is [i * step + start];
    a single sample is [start]. *)
Definition linspace (start stop : R) (num : nat) : list R :=
  match num with
  | O => []
  | S O => [start]
  | S div => map (fun i => INR i * ((stop - start) / INR div) + start) (seq 0 num)
  end.

(** [np.argmax] on a non-empty one-dimensional array: the index of the
    maximum, the first one when it occurs more than once. *)
Fixpoint argmax (l : list R) : nat :=
  match l with
  | [] => O
  | x :: l' =>
      match l' with
      | [] => O
      | _ :: _ => if x <? nth (argmax l') l' 0 then S (argmax l') else O
      end
  end.

End Np.

(** ** The solver *)

(** [calculate_surface_intersection(r_source, angle_rad, r_earth)] returns
    the pair [(range_m, central_angle)]; "no intersection" is the pair
    [(-1.0, 0.0)]. *)
Definition calculate_surface_intersection (r_source angle_rad r_earth : R) : R * R :=
  let r_effective := r_source * cos angle_rad in
  if (r_effective <=? 0) || (r_earth <? r_effective) then (-1, 0)
  else
    let cos_central := r_effective / r_earth in
    if (cos_central <? -1) || (1 <? cos_central) then (-1, 0)
    else
      let central_angle := acos cos_central in
      let range_m := r_earth * central_angle in
      (range_m, central_angle).

(** The [valid] flag of the specification's IntersectionResult: the source
    encodes [valid = false] as [range_m = -1]. *)
Definition valid (res : R * R) : Prop := fst res <> -1.

(** ** The sampler *)

Record RayProfile : Type := mkRayProfile {
  horizontal_ranges : list R;
  depths_below_surface : list R;
  max_depth : R;
  max_depth_range : R
}.

(** The array part of [calculate_ray_depth_profile], for a sample count that
    [np.linspace] accepts. *)
Definition ray_profile_arrays (r_source central_angle r_earth : R) (num : nat)
  : list R * list R :=
  let source_angle := 0 in
  let source_x := r_source * cos source_angle in
  let source_y := r_source * sin source_angle in
  let intersect_angle := central_angle in
  let intersect_x := r_earth * cos intersect_angle in
  let intersect_y := r_earth * sin intersect_angle in
  let t := Np.linspace 0 1 num in
  let ray_x := map (fun ti => source_x + ti * (intersect_x - source_x)) t in
  let ray_y := map (fun ti => source_y + ti * (intersect_y - source_y)) t in
  let ray_r := map (fun p => sqrt ((fst p) ^ 2 + (snd p) ^ 2)) (combine ray_x ray_y) in
  let depths_below_surface := map (fun r => r_earth - r) ray_r in
  let ray_angles := map (fun p => Np.arctan2 (snd p) (fst p)) (combine ray_x ray_y) in
  let horizontal_ranges := map (fun a => r_earth * a) ray_angles in
  (horizontal_ranges, depths_below_surface).

(** [calculate_ray_depth_profile(source_depth, beam_angle, r_source, range_m,
    central_angle, r_earth, num_points)].  [np.linspace] raises [ValueError]
    on a negative count; on a zero count the arrays are empty and
    [np.argmax] raises [ValueError]. *)
Definition calculate_ray_depth_profile
    (source_depth beam_angle r_source range_m central_angle r_earth : R)
    (num_points : Z) : pyresult RayProfile :=
  if (num_points <? 0)%Z then Raises ValueError
  else
    let '(horizontal_ranges, depths_below_surface) :=
      ray_profile_arrays r_source central_angle r_earth (Z.to_nat num_points) in
    match depths_below_surface with
    | [] => Raises ValueError
    | _ :: _ =>
        let max_depth_idx := Np.argmax depths_below_surface in
        let max_depth := nth max_depth_idx depths_below_surface 0 in
        let max_depth_range := nth max_depth_idx horizontal_ranges 0 in
        Returns (mkRayProfile horizontal_ranges depths_below_surface
                   max_depth max_depth_range)
    end.

(** ** Queries and the chord, sample by sample *)

(** A valid query of the sampler, as the caller builds it: the depth lies
    within the sphere, the source radius is derived from the depth, and
    [(range_m, central_angle)] is a valid result of the solver for that
    source radius and some launch angle in [-PI/2, PI/2]. *)
Definition valid_query (source_depth r_source range_m central_angle r_earth : R) : Prop :=
  0 <= source_depth < r_earth /\
  r_source = r_earth - source_depth /\
  exists angle_rad : R,
    - (PI / 2) <= angle_rad <= PI / 2 /\
    calculate_surface_intersection r_source angle_rad r_earth = (range_m, central_angle) /\
    valid (range_m, central_angle).

Section Chord.

Variables r_source central_angle r_earth : R.

(** The Cartesian point of the chord at parameter [t], written as the source
    writes [ray_x] and [ray_y]. *)
Definition chord_x (t : R) : R :=
  r_source * cos 0 + t * (r_earth * cos central_angle - r_source * cos 0).

Definition chord_y (t : R) : R :=
  r_source * sin 0 + t * (r_earth * sin central_angle - r_source * sin 0).

(** One entry of [depths_below_surface] and of [horizontal_ranges]. *)
Definition depth_at (t : R) : R :=
  r_earth - sqrt (chord_x t ^ 2 + chord_y t ^ 2).

Definition range_at (t : R) : R :=
  r_earth * Np.arctan2 (chord_y t) (chord_x t).

End Chord.

(** ** The command-line program of the acoustic script *)

Definition DEG_TO_RAD : R := PI / 180.

(** [plot_geometry(source_depth, beam_angle, r_source, range_m,
    central_angle, r_earth)].  The drawing calls have no counterpart here;
    what remains is the call of the sampler with its default
    [num_points = 100] and the returned pair [(max_depth, max_depth_range)]. *)
Definition plot_geometry
    (source_depth beam_angle r_source range_m central_angle r_earth : R)
  : pyresult (R * R) :=
  match calculate_ray_depth_profile source_depth beam_angle r_source range_m
          central_angle r_earth 100 with
  | Returns p => Returns (max_depth p, max_depth_range p)
  | Raises e => Raises e
  end.

(** The "Context" line of the report, chosen by the range in kilometres. *)
Definition range_context (range_km : R) : string :=
  if range_km <? 1 then "Very short range - local/near-field effects"%string
  else if range_km <? 10 then "Short range - harbor/coastal scale"%string
  else if range_km <? 100 then "Medium range - regional oceanographic scale"%string
  else if range_km <? 1000 then "Long range - basin scale"%string
  else "Very long range - global/trans-oceanic scale"%string.

(** What a run of [main] decides, the formatted numbers of its report left
    out: either [sys.exit(code)] after an error message, or a completed run
    with the solver's result, the context line (absent when the report says
    "No surface intersection"), the flat-Earth range when that comparison is
    printed, and the outcome of [plot_geometry] when it is called. *)
Inductive main_outcome : Type :=
| SysExit (code : Z) (message : string)
| Completed (range_m central_angle : R)
            (context : option string)
            (flat_earth : option R)
            (plot : option (pyresult (R * R))).

(** [main], from the parsed [depth], [angle] (degrees) and [--earth-radius]
    on. *)
Definition main (source_depth beam_angle earth_radius : R) : main_outcome :=
  if source_depth <? 0 then
    SysExit 1 "Error: Source depth must be positive (below surface)"
  else if earth_radius <=? source_depth then
    SysExit 1 "Error: Source depth exceeds Earth radius"
  else if 90 <? Rabs beam_angle then
    SysExit 1 "Error: Beam angle must be between -90 and +90 degrees"
  else
    let beam_angle_rad := beam_angle * DEG_TO_RAD in
    let r_source := earth_radius - source_depth in
    let '(range_m, central_angle) :=
      calculate_surface_intersection r_source beam_angle_rad earth_radius in
    let context :=
      if range_m <? 0 then None
      else let range_km := range_m / 1000 in Some (range_context range_km) in
    let flat_earth :=
      if range_m <? 0 then None
      else if 1 / 1000000 <? Rabs beam_angle then
        let flat_earth_range := source_depth / tan beam_angle_rad in
        if 0 <? flat_earth_range then Some flat_earth_range else None
      else None in
    let plot :=
      if 0 <? range_m then
        Some (plot_geometry source_depth beam_angle r_source range_m
                central_angle earth_radius)
      else None in
    Completed range_m central_angle context flat_earth plot.

(** ** The subplot grid of [plot_pe_comparison.py] *)

Module PeComparison.

(** [plot_pe_comparison] lays [n_curves] curves out on a grid:
    [n_cols = int(np.ceil(np.sqrt(n_curves)))] and
    [n_rows = int(np.ceil(n_curves / n_cols))].  Both ceilings are taken of
    exact real values here and computed on naturals; the lemmas
    [ceil_sqrt_is_ceiling] and [ceil_div_is_ceiling] below relate them to the
    real square root and quotient.  The division is Python's [/] on two
    ints, which raises [ZeroDivisionError] when [n_cols] is 0. *)
Definition ceil_sqrt (n : nat) : nat :=
  let s := Nat.sqrt n in
  if (s * s =? n)%nat then s else S s.

Definition ceil_div (n c : nat) : nat := ((n + c - 1) / c)%nat.

Inductive layout : Type :=
| Grid (n_rows n_cols : nat)
| ZeroDivisionError.

Definition grid_layout (n_curves : nat) : layout :=
  let n_cols := ceil_sqrt n_curves in
  match n_cols with
  | O => ZeroDivisionError
  | S _ => let n_rows := ceil_div n_curves n_cols in Grid n_rows n_cols
  end.

End PeComparison.

(** ** The precision files of [scripts/genpi/pi_precision_test.py] *)

Module PiPrecision.

(** A line written by [write_precision_file], with the text of the number
    left symbolic: [f"{line_no}  {int(value)}\n"] when no decimals are asked
    for, [f"{line_no}  {value:.{current}f}\n"] otherwise. *)
Inductive line : Type :=
| IntegerLine (line_no : Z)
| FixedLine (line_no : Z) (decimals : Z).

Definition line_no_of (l : line) : Z :=
  match l with IntegerLine n => n | FixedLine n _ => n end.

Definition decimals_of (l : line) : Z :=
  match l with IntegerLine _ => 0 | FixedLine _ d => d end.

(** The loop condition
    [(step > 0 and current <= end_dp) or (step < 0 and current >= end_dp)]. *)
Definition continues (current end_dp step : Z) : bool :=
  ((0 <? step) && (current <=? end_dp) || (step <? 0) && (end_dp <=? current))%Z.

(** The largest precision a format specification may ask for: C's
    [INT_MAX]. *)
Definition INT_MAX : Z := 2147483647.

(** The [while] loop, on fuel.  A negative [current] makes the format
    specification [.{current}f] invalid, and one above [INT_MAX] is refused
    as "precision too big": in both cases Python raises [ValueError], and
    the lines written before it stay in the file. *)
Fixpoint write_loop (fuel : nat) (current end_dp step line_no : Z)
  : list line * option exn :=
  match fuel with
  | O => ([], None)
  | S fuel' =>
      if continues current end_dp step then
        if (current =? 0)%Z then
          let '(rest, err) := write_loop fuel' (current + step) end_dp step (line_no + 1) in
          (IntegerLine line_no :: rest, err)
        else if ((current <? 0) || (INT_MAX <? current))%Z then ([], Some ValueError)
        else
          let '(rest, err) := write_loop fuel' (current + step) end_dp step (line_no + 1) in
          (FixedLine line_no current :: rest, err)
      else ([], None)
  end.

(** [write_precision_file(filename, value, start_dp, end_dp, step)]: the
    lines written, in order, and the exception raised, if any.  The fuel is
    more than the loop can use ([write_precision_file_runs] below). *)
Definition write_precision_file (start_dp end_dp step : Z) : list line * option exn :=
  write_loop (S (Z.to_nat (Z.abs (end_dp - start_dp)))) start_dp end_dp step 1.


(** The line written for [current] decimals under number [line_no], when
    [current] is between 0 and [INT_MAX]. *)
Definition line_for (line_no current : Z) : line :=
  if (current =? 0)%Z then IntegerLine line_no else FixedLine line_no current.

End PiPrecision.

(** ** The file names of [rename_ram_in_files.py] *)

Module RenameRam.

(** [s.startswith(p)], [sub in s] and [s.endswith(suffix)] on strings. *)
Definition startswith (s p : string) : bool := String.prefix p s.

Fixpoint contains (sub s : string) : bool :=
  String.prefix sub s ||
  match s with
  | EmptyString => false
  | String _ s' => contains sub s'
  end.

Fixpoint endswith (s suffix : string) : bool :=
  String.eqb s suffix ||
  match s with
  | EmptyString => false
  | String _ s' => endswith s' suffix
  end.

(** The slice [s[:-3]]. *)
Definition drop_last3 (s : string) : string :=
  String.substring 0 (String.length s - 3) s.

(** [int(x)] on a finite float, which is a rational number: truncation
    towards zero. *)
Definition py_int (x : QArith_base.Q) : Z :=
  Z.quot (QArith_base.Qnum x) (Zpos (QArith_base.Qden x)).

Fixpoint zeros (n : nat) : string :=
  match n with
  | O => EmptyString
  | S n' => String "0" (zeros n')
  end.

(** The format [f"{n:0{width}d}"]: the decimal digits of [n], padded with
    zeros on the left, after the sign, to [width] characters in all; longer
    numbers are not cut. *)
Definition format_0d (width : nat) (n : Z) : string :=
  let digits := NilEmpty.string_of_uint (N.to_uint (Z.abs_N n)) in
  if (n <? 0)%Z then
    String "-" (zeros (width - 1 - String.length digits) ++ digits)
  else (zeros (width - String.length digits) ++ digits)%string.

(** [generate_target_filename(original_name, freq, depth)]. *)
Definition generate_target_filename
    (original_name : string) (freq depth : QArith_base.Q) : string :=
  let base_name :=
    if endswith original_name ".in" then drop_last3 original_name
    else original_name in
  let freq_int := py_int freq in
  let depth_int := py_int depth in
  let freq_str := format_0d 5 freq_int in
  let depth_str := format_0d 4 depth_int in
  ("ram_" ++ base_name ++ "_d" ++ depth_str ++ "_f" ++ freq_str ++ ".in")%string.

(** The test by which [main] skips a file as "already follows target naming
    pattern". *)
Definition follows_pattern (filename : string) : bool :=
  startswith filename "ram_" && contains "_d" filename &&
  contains "_f" filename && endswith filename ".in".

End RenameRam.

(** ** The acoustic code on binary64 *)

(** [np.pi / 2] as a real number: the binary64 number
    [0x1.921fb54442d18p+0], which is also what [main] computes for 90
    degrees ([90 * DEG_TO_RAD]). *)
Definition half_pi_binary64 : R := 7074237752028440 / 2 ^ 52.

Module B64.

Local Open Scope float_scope.

(** The mathematical library behind numpy.  Its results are not fixed to
    the last bit, so the functions are left open; what is fixed, by the C
    standard (Annex F) and for every implementation numpy uses, are the
    exact cases [cos 0 = 1], [sin 0 = 0] and [acos 1 = 0].  [np.sqrt] is the
    correctly rounded square root of IEEE 754, [PrimFloat.sqrt]. *)
Record Libm : Type := mkLibm {
  np_cos : float -> float;
  np_sin : float -> float;
  np_arccos : float -> float;
  np_arctan2 : float -> float -> float;
  np_cos_0 : np_cos 0 = 1;
  np_sin_0 : np_sin 0 = 0;
  np_arccos_1 : np_arccos 1 = 0
}.

(** [np.pi], [DEFAULT_EARTH_RADIUS] and [DEG_TO_RAD]. *)
Definition np_pi : float := 0x1.921fb54442d18p+1.
Definition DEG_TO_RAD : float := np_pi / 180.

(** [calculate_surface_intersection], every operation rounded as binary64
    rounds it; a comparison with a NaN is false, as in Python. *)
Definition calculate_surface_intersection
    (m : Libm) (r_source angle_rad r_earth : float) : float * float :=
  let r_effective := r_source * np_cos m angle_rad in
  if (r_effective <=? 0) || (r_earth <? r_effective) then (-1, 0)
  else
    let cos_central := r_effective / r_earth in
    if (cos_central <? -1) || (1 <? cos_central) then (-1, 0)
    else
      let central_angle := np_arccos m cos_central in
      let range_m := r_earth * central_angle in
      (range_m, central_angle).

(** [np.arange(0, num)] as floats. *)
Definition arange (num : nat) : list float :=
  map (fun i : nat => PrimFloat.of_uint63 (Uint63.of_Z (Z.of_nat i))) (seq 0 num).

(** [np.linspace(start, stop, num)], endpoint included, as numpy computes
    it: [step = delta / div], the samples [arange * step + start] (or
    [arange / div * delta + start] when the step rounds to 0), and the last
    sample overwritten with [stop]. *)
Definition linspace (start stop : float) (num : nat) : list float :=
  match num with
  | O => []
  | S div =>
      let delta := stop - start in
      let y := arange num in
      let y :=
        match div with
        | O => map (fun yi => yi * delta) y
        | S _ =>
            let fdiv := PrimFloat.of_uint63 (Uint63.of_Z (Z.of_nat div)) in
            let step := delta / fdiv in
            if step =? 0 then map (fun yi => yi / fdiv * delta) y
            else map (fun yi => yi * step) y
        end in
      let y := map (fun yi => yi + start) y in
      match div with
      | O => y
      | S _ => removelast y ++ [stop]
      end
  end.

(** [np.argmax] on doubles, as its loop runs: the running maximum [mp] is
    replaced when [not (x <= mp)], and a NaN ends the search. *)
Fixpoint argmax_from (mp : float) (max_ind i : nat) (ip : list float) : nat :=
  match ip with
  | [] => max_ind
  | x :: ip' =>
      if negb (x <=? mp) then
        if PrimFloat.is_nan x then i else argmax_from x i (S i) ip'
      else argmax_from mp max_ind (S i) ip'
  end.

Definition argmax (ip : list float) : nat :=
  match ip with
  | [] => O
  | mp :: ip' => if PrimFloat.is_nan mp then O else argmax_from mp O 1 ip'
  end.

Record RayProfile : Type := mkRayProfile {
  horizontal_ranges : list float;
  depths_below_surface : list float;
  max_depth : float;
  max_depth_range : float
}.

(** [calculate_ray_depth_profile] on binary64; [ray_x**2] is the rounded
    product [ray_x * ray_x]. *)
Definition calculate_ray_depth_profile (m : Libm)
    (source_depth beam_angle r_source range_m central_angle r_earth : float)
    (num_points : Z) : pyresult RayProfile :=
  if (num_points <? 0)%Z then Raises ValueError
  else
    let source_angle := 0 in
    let source_x := r_source * np_cos m source_angle in
    let source_y := r_source * np_sin m source_angle in
    let intersect_angle := central_angle in
    let intersect_x := r_earth * np_cos m intersect_angle in
    let intersect_y := r_earth * np_sin m intersect_angle in
    let t := linspace 0 1 (Z.to_nat num_points) in
    let ray_x := map (fun ti => source_x + ti * (intersect_x - source_x)) t in
    let ray_y := map (fun ti => source_y + ti * (intersect_y - source_y)) t in
    let ray_r := map (fun p => PrimFloat.sqrt (fst p * fst p + snd p * snd p))
                   (combine ray_x ray_y) in
    let depths_below_surface := map (fun r => r_earth - r) ray_r in
    let ray_angles := map (fun p => np_arctan2 m (snd p) (fst p)) (combine ray_x ray_y) in
    let horizontal_ranges := map (fun a => r_earth * a) ray_angles in
    match depths_below_surface with
    | [] => Raises ValueError
    | _ :: _ =>
        let max_depth_idx := argmax depths_below_surface in
        let max_depth := nth max_depth_idx depths_below_surface 0 in
        let max_depth_range := nth max_depth_idx horizontal_ranges 0 in
        Returns (mkRayProfile horizontal_ranges depths_below_surface
                   max_depth max_depth_range)
    end.

End B64.

(** ** Boolean comparisons reflect the order *)

Lemma Rltb_true (x y : R) : (x <? y) = true <-> x < y.
Proof. unfold Rltb; destruct (Rlt_dec x y); split; intros; try discriminate; lra || reflexivity. Qed.

Lemma Rltb_false (x y : R) : (x <? y) = false <-> y <= x.
Proof. unfold Rltb; destruct (Rlt_dec x y); split; intros; try discriminate; lra || reflexivity. Qed.

Lemma Rleb_true (x y : R) : (x <=? y) = true <-> x <= y.
Proof. unfold Rleb; destruct (Rle_dec x y); split; intros; try discriminate; lra || reflexivity. Qed.

Lemma Rleb_false (x y : R) : (x <=? y) = false <-> y < x.
Proof. unfold Rleb; destruct (Rle_dec x y); split; intros; try discriminate; lra || reflexivity. Qed.

(** ** The solver, case by case *)

(** The ratio [r_effective / r_earth] of an intersecting ray. *)
Lemma ratio_bounds (r_effective r_earth : R) :
  0 < r_effective <= r_earth -> 0 < r_effective / r_earth <= 1.
Proof.
  intros [Hpos Hle]. split.
  - apply Rdiv_lt_0_compat; lra.
  - unfold Rdiv. replace 1 with (r_earth * / r_earth) by (field; lra).
    apply Rmult_le_compat_r; [ left; apply Rinv_0_lt_compat | ]; lra.
Qed.

Lemma ratio_eq_1 (r_effective r_earth : R) :
  0 < r_earth -> r_effective / r_earth = 1 -> r_effective = r_earth.
Proof.
  intros Hpos H. replace r_effective with (r_effective / r_earth * r_earth) by (field; lra).
  rewrite H. lra.
Qed.

Section Solver.

Variables r_source angle_rad r_earth : R.

Let r_effective := r_source * cos angle_rad.

(** The first guard fires: no intersection. *)
Lemma solver_no_intersection :
  r_effective <= 0 \/ r_earth < r_effective ->
  calculate_surface_intersection r_source angle_rad r_earth = (-1, 0).
Proof.
  intros H. unfold calculate_surface_intersection. fold r_effective.
  destruct H as [H | H].
  - apply Rleb_true in H. rewrite H. reflexivity.
  - apply Rltb_true in H. rewrite H, orb_true_r. reflexivity.
Qed.

(** Past the first guard the cosine of the central angle is in (0, 1], the
    second guard never fires, and the result is the arccosine branch. *)
Lemma solver_intersection :
  0 < r_effective <= r_earth ->
  calculate_surface_intersection r_source angle_rad r_earth =
    (r_earth * acos (r_effective / r_earth), acos (r_effective / r_earth)).
Proof.
  intros [Hpos Hle]. unfold calculate_surface_intersection. fold r_effective.
  pose proof (ratio_bounds r_effective r_earth (conj Hpos Hle)) as Hratio.
  replace (r_effective <=? 0) with false by (symmetry; apply Rleb_false; lra).
  replace (r_earth <? r_effective) with false by (symmetry; apply Rltb_false; lra).
  replace (r_effective / r_earth <? -1) with false by (symmetry; apply Rltb_false; lra).
  replace (1 <? r_effective / r_earth) with false by (symmetry; apply Rltb_false; lra).
  reflexivity.
Qed.

Lemma solver_cases :
  (r_effective <= 0 \/ r_earth < r_effective) \/ 0 < r_effective <= r_earth.
Proof. lra. Qed.

End Solver.

(** ** Facts about the arccosine *)

Lemma acos_nonneg (x : R) : 0 <= acos x.
Proof. apply acos_bound. Qed.

(** The arccosine is strictly decreasing on [-1, 1]. *)
Lemma acos_strictly_decreasing (x y : R) :
  -1 <= x -> x < y -> y <= 1 -> acos y < acos x.
Proof.
  intros Hx Hxy Hy.
  destruct (Rlt_le_dec (acos y) (acos x)) as [Hlt | Hle]; [assumption | exfalso].
  pose proof (acos_bound x) as Bx. pose proof (acos_bound y) as By.
  pose proof (cos_decr_1 (acos x) (acos y)
                ltac:(lra) ltac:(lra) ltac:(lra) ltac:(lra) Hle) as Hcos.
  rewrite !cos_acos in Hcos by lra. lra.
Qed.

Lemma acos_eq_0 (x : R) : -1 <= x <= 1 -> acos x = 0 -> x = 1.
Proof.
  intros Hx H0. rewrite <- (cos_acos x Hx), H0. apply cos_0.
Qed.

Lemma acos_le_PI2 (x : R) : 0 <= x -> acos x <= PI / 2.
Proof.
  intros Hx. destruct (Rle_lt_dec 1 x) as [H1 | H1].
  - unfold acos. destruct (Rle_dec x (-1)); [lra|].
    destruct (Rle_dec 1 x); [|lra]. pose proof PI_RGT_0. lra.
  - destruct Hx as [Hx | Hx].
    + left. rewrite <- acos_0. apply acos_strictly_decreasing; lra.
    + subst x. rewrite acos_0. lra.
Qed.

(** ** The solver: results *)

(** C2.  [calculate_surface_intersection] is a total function (no branch of
    it raises), and it returns the invalid result, [range_m = -1], exactly
    when the effective radius [r_source * cos angle_rad] is [<= 0] or
    [> r_earth].  The claim's assumptions [r_source > 0], [r_earth > 0] and
    [|angle_rad| <= PI/2] are not needed. *)
Theorem solver_invalid_iff (r_source angle_rad r_earth : R) :
  fst (calculate_surface_intersection r_source angle_rad r_earth) = -1 <->
  (r_source * cos angle_rad <= 0 \/ r_source * cos angle_rad > r_earth).
Proof.
  split.
  - intros Hinv.
    destruct (solver_cases r_source angle_rad r_earth) as [Hno | Hyes]; [lra|].
    rewrite (solver_intersection _ _ _ Hyes) in Hinv. simpl in Hinv.
    pose proof (acos_nonneg (r_source * cos angle_rad / r_earth)) as Hacos.
    assert (0 <= r_earth * acos (r_source * cos angle_rad / r_earth))
      by (apply Rmult_le_pos; lra).
    lra.
  - intros H. rewrite solver_no_intersection by lra. reflexivity.
Qed.

(** C3.  When the solver's result is valid, [range_m >= 0], the central angle
    is in [0, PI/2], and [range_m = 0] exactly when the effective radius
    equals [r_earth]. *)
Theorem solver_output_guarantees (r_source angle_rad r_earth : R) :
  valid (calculate_surface_intersection r_source angle_rad r_earth) ->
  let res := calculate_surface_intersection r_source angle_rad r_earth in
  0 <= fst res /\
  0 <= snd res <= PI / 2 /\
  (fst res = 0 <-> r_source * cos angle_rad = r_earth).
Proof.
  intros Hvalid res. subst res. unfold valid in Hvalid.
  destruct (solver_cases r_source angle_rad r_earth) as [Hno | Hyes].
  - rewrite (solver_no_intersection _ _ _ Hno) in Hvalid. simpl in Hvalid. lra.
  - rewrite (solver_intersection _ _ _ Hyes). simpl.
    pose proof (ratio_bounds _ _ Hyes) as Hratio.
    pose proof (acos_nonneg (r_source * cos angle_rad / r_earth)) as Hacos.
    pose proof (acos_le_PI2 (r_source * cos angle_rad / r_earth) ltac:(lra)) as Hup.
    assert (Hearth : 0 < r_earth) by lra.
    repeat split; try lra.
    + apply Rmult_le_pos; lra.
    + intros H0. apply Rmult_integral in H0. destruct H0 as [H0 | H0]; [lra|].
      apply ratio_eq_1; [assumption|]. apply acos_eq_0; [lra | assumption].
    + intros Heq. rewrite Heq. replace (r_earth / r_earth) with 1 by (field; lra).
      rewrite acos_1. lra.
Qed.

Lemma solver_output_guarantees_witness :
  valid (calculate_surface_intersection 1 0 2) /\
  0 <= fst (calculate_surface_intersection 1 0 2) /\
  0 <= snd (calculate_surface_intersection 1 0 2) <= PI / 2 /\
  (fst (calculate_surface_intersection 1 0 2) = 0 <-> 1 * cos 0 = 2).
Proof.
  assert (Hv : valid (calculate_surface_intersection 1 0 2)).
  { unfold valid. rewrite solver_intersection by (rewrite cos_0; lra). simpl.
    pose proof (acos_nonneg (1 * cos 0 / 2)). lra. }
  split; [exact Hv | exact (solver_output_guarantees 1 0 2 Hv)].
Defined.



(** C8.  A horizontal ray ([angle_rad = 0]) from [0 < r_source <= r_earth]
    has central angle [acos (r_source / r_earth)]; from the surface itself
    ([r_source = r_earth]) the range and the central angle are both 0. *)
Theorem horizontal_ray (r_source r_earth : R) :
  0 < r_source <= r_earth ->
  calculate_surface_intersection r_source 0 r_earth =
    (r_earth * acos (r_source / r_earth), acos (r_source / r_earth)) /\
  (r_source = r_earth ->
   calculate_surface_intersection r_source 0 r_earth = (0, 0)).
Proof.
  intros Hsrc.
  assert (Heq : calculate_surface_intersection r_source 0 r_earth =
                (r_earth * acos (r_source / r_earth), acos (r_source / r_earth))).
  { rewrite solver_intersection by (rewrite cos_0; lra).
    rewrite cos_0, Rmult_1_r. reflexivity. }
  split; [exact Heq|].
  intros Hsurf. rewrite Heq, Hsurf.
  replace (r_earth / r_earth) with 1 by (field; lra).
  rewrite acos_1, Rmult_0_r. reflexivity.
Qed.

Lemma horizontal_ray_witness :
  0 < 2 <= 2 /\
  calculate_surface_intersection 2 0 2 = (2 * acos (2 / 2), acos (2 / 2)) /\
  (2 = 2 -> calculate_surface_intersection 2 0 2 = (0, 0)).
Proof. split; [lra|]. apply (horizontal_ray 2 2). lra. Defined.

(** ** numpy primitives: lemmas *)

Lemma linspace_length (start stop : R) (num : nat) :
  length (Np.linspace start stop num) = num.
Proof.
  destruct num as [|[|d]]; simpl; try reflexivity.
  rewrite length_map, length_seq. reflexivity.
Qed.

(** All samples of [np.linspace(0, 1, num)] have the form [i / (num - 1)],
    and a single sample is 0. *)
Lemma linspace_unit_nth (num i : nat) :
  (i < num)%nat ->
  nth i (Np.linspace 0 1 num) 0 =
    match num with
    | S (S d) => INR i / INR (S d)
    | _ => 0
    end.
Proof.
  intros Hi. destruct num as [|[|d]]; [lia | | ].
  - destruct i; [reflexivity | lia].
  - unfold Np.linspace.
    set (f := fun k : nat => INR k * ((1 - 0) / INR (S d)) + 0).
    rewrite (nth_indep _ 0 (f O)) by (rewrite length_map, length_seq; exact Hi).
    rewrite map_nth, seq_nth by exact Hi. unfold f. simpl (0 + i)%nat.
    pose proof (lt_0_INR (S d) ltac:(lia)). field. lra.
Qed.

Lemma linspace_unit_nth_bounds (num i : nat) :
  (i < num)%nat -> 0 <= nth i (Np.linspace 0 1 num) 0 <= 1.
Proof.
  intros Hi. rewrite linspace_unit_nth by exact Hi.
  destruct num as [|[|d]]; try lra.
  pose proof (lt_0_INR (S d) ltac:(lia)) as Hd.
  pose proof (pos_INR i) as Hi0.
  assert (Hle : INR i <= INR (S d)) by (apply le_INR; lia).
  split.
  - apply Rmult_le_pos; [assumption | left; apply Rinv_0_lt_compat; assumption].
  - unfold Rdiv. replace 1 with (INR (S d) * / INR (S d)) by (field; lra).
    apply Rmult_le_compat_r; [left; apply Rinv_0_lt_compat |]; assumption.
Qed.

Lemma linspace_unit_nth_mono (num i j : nat) :
  (i <= j)%nat -> (j < num)%nat ->
  nth i (Np.linspace 0 1 num) 0 <= nth j (Np.linspace 0 1 num) 0.
Proof.
  intros Hij Hj. rewrite !linspace_unit_nth by lia.
  destruct num as [|[|d]]; try lra.
  pose proof (lt_0_INR (S d) ltac:(lia)) as Hd.
  unfold Rdiv. apply Rmult_le_compat_r; [left; apply Rinv_0_lt_compat; assumption|].
  apply le_INR. exact Hij.
Qed.

Lemma linspace_unit_first (num : nat) :
  (1 <= num)%nat -> nth 0 (Np.linspace 0 1 num) 0 = 0.
Proof.
  intros Hn. rewrite linspace_unit_nth by lia.
  destruct num as [|[|d]]; try reflexivity.
  simpl INR at 1. unfold Rdiv. apply Rmult_0_l.
Qed.

Lemma linspace_unit_last (num : nat) :
  (2 <= num)%nat -> nth (num - 1) (Np.linspace 0 1 num) 0 = 1.
Proof.
  intros Hn. rewrite linspace_unit_nth by lia.
  destruct num as [|[|d]]; try lia.
  replace (S (S d) - 1)%nat with (S d) by lia.
  pose proof (lt_0_INR (S d) ltac:(lia)). field. lra.
Qed.

(** [np.argmax] returns an index of the array, and the entry there is an
    upper bound of every entry. *)
Lemma argmax_lt_length (l : list R) :
  l <> [] -> (Np.argmax l < length l)%nat.
Proof.
  induction l as [|x l' IH]; intros Hne; [congruence|].
  destruct l' as [|y l'']; [simpl; lia|].
  change (Np.argmax (x :: y :: l''))
    with (if x <? nth (Np.argmax (y :: l'')) (y :: l'') 0
          then S (Np.argmax (y :: l'')) else O).
  specialize (IH ltac:(discriminate)).
  destruct (x <? _); simpl length in *; lia.
Qed.

Lemma argmax_is_max (l : list R) (x : R) :
  In x l -> x <= nth (Np.argmax l) l 0.
Proof.
  induction l as [|a l' IH]; intros Hin; [destruct Hin|].
  destruct l' as [|b l''].
  - destruct Hin as [<- | []]. simpl. lra.
  - change (Np.argmax (a :: b :: l''))
      with (if a <? nth (Np.argmax (b :: l'')) (b :: l'') 0
            then S (Np.argmax (b :: l'')) else O).
    destruct (a <? nth (Np.argmax (b :: l'')) (b :: l'') 0) eqn:Hcmp.
    + apply Rltb_true in Hcmp.
      change (nth (S ?k) (a :: ?l) 0) with (nth k l 0).
      destruct Hin as [<- | Hin]; [lra | apply IH; exact Hin].
    + apply Rltb_false in Hcmp.
      change (nth 0 (a :: ?l) 0) with a.
      destruct Hin as [<- | Hin]; [lra|].
      apply Rle_trans with (nth (Np.argmax (b :: l'')) (b :: l'') 0);
        [apply IH; exact Hin | exact Hcmp].
Qed.

(** Every entry before the one [np.argmax] picks is strictly smaller: the
    first maximum is taken. *)
Lemma argmax_first (l : list R) (i : nat) :
  (i < Np.argmax l)%nat -> nth i l 0 < nth (Np.argmax l) l 0.
Proof.
  revert i. induction l as [|a l' IH]; intros i Hi; [simpl in Hi; lia|].
  destruct l' as [|b l'']; [simpl in Hi; lia|].
  revert Hi.
  change (Np.argmax (a :: b :: l''))
    with (if a <? nth (Np.argmax (b :: l'')) (b :: l'') 0
          then S (Np.argmax (b :: l'')) else O).
  destruct (a <? nth (Np.argmax (b :: l'')) (b :: l'') 0) eqn:Hcmp; [|lia].
  intros Hi. apply Rltb_true in Hcmp.
  change (nth (S ?k) (a :: ?l) 0) with (nth k l 0).
  destruct i as [|i']; [exact Hcmp|].
  change (nth (S i') (a :: ?l) 0) with (nth i' l 0). apply IH. lia.
Qed.

(** ** The sampler as a map over the parameter values *)

Lemma combine_map_same {A B C : Type} (f : A -> B) (g : A -> C) (l : list A) :
  combine (map f l) (map g l) = map (fun a => (f a, g a)) l.
Proof. induction l as [|a l IH]; simpl; [reflexivity | rewrite IH; reflexivity]. Qed.

Lemma ray_profile_arrays_map (r_source central_angle r_earth : R) (num : nat) :
  ray_profile_arrays r_source central_angle r_earth num =
    (map (range_at r_source central_angle r_earth) (Np.linspace 0 1 num),
     map (depth_at r_source central_angle r_earth) (Np.linspace 0 1 num)).
Proof.
  unfold ray_profile_arrays. rewrite combine_map_same, !map_map. reflexivity.
Qed.

Section Sampler.

Variables source_depth beam_angle r_source range_m central_angle r_earth : R.
Variable num_points : Z.

Let t := Np.linspace 0 1 (Z.to_nat num_points).
Let ranges := map (range_at r_source central_angle r_earth) t.
Let depths := map (depth_at r_source central_angle r_earth) t.

(** With at least one sample the call returns, whatever the other
    arguments are. *)
Lemma sampler_returns :
  (1 <= num_points)%Z ->
  calculate_ray_depth_profile source_depth beam_angle r_source range_m
      central_angle r_earth num_points =
    Returns (mkRayProfile ranges depths
               (nth (Np.argmax depths) depths 0)
               (nth (Np.argmax depths) ranges 0)).
Proof.
  intros Hn. unfold calculate_ray_depth_profile.
  replace (num_points <? 0)%Z with false by (symmetry; apply Z.ltb_ge; lia).
  rewrite ray_profile_arrays_map. fold t. fold ranges. fold depths.
  assert (Hlen : length depths = Z.to_nat num_points).
  { unfold depths, t. rewrite length_map, linspace_length. reflexivity. }
  destruct depths as [|d0 ds] eqn:Hd; [simpl in Hlen; lia | reflexivity].
Qed.

(** With no sample, or a negative count, numpy raises. *)
Lemma sampler_raises :
  (num_points <= 0)%Z ->
  calculate_ray_depth_profile source_depth beam_angle r_source range_m
      central_angle r_earth num_points = Raises ValueError.
Proof.
  intros Hn. unfold calculate_ray_depth_profile.
  destruct (num_points <? 0)%Z eqn:Hneg; [reflexivity|].
  apply Z.ltb_ge in Hneg. replace num_points with 0%Z by lia. reflexivity.
Qed.

Lemma sampler_lengths :
  length ranges = Z.to_nat num_points /\ length depths = Z.to_nat num_points.
Proof.
  unfold ranges, depths, t. rewrite !length_map, linspace_length. split; reflexivity.
Qed.

Lemma sampler_nth_depth (i : nat) :
  (i < Z.to_nat num_points)%nat ->
  nth i depths 0 = depth_at r_source central_angle r_earth (nth i t 0).
Proof.
  intros Hi. unfold depths.
  rewrite (nth_indep _ 0 (depth_at r_source central_angle r_earth 0))
    by (rewrite length_map; unfold t; rewrite linspace_length; exact Hi).
  apply map_nth.
Qed.

Lemma sampler_nth_range (i : nat) :
  (i < Z.to_nat num_points)%nat ->
  nth i ranges 0 = range_at r_source central_angle r_earth (nth i t 0).
Proof.
  intros Hi. unfold ranges.
  rewrite (nth_indep _ 0 (range_at r_source central_angle r_earth 0))
    by (rewrite length_map; unfold t; rewrite linspace_length; exact Hi).
  apply map_nth.
Qed.

End Sampler.

(** ** Geometry of the chord *)

Section ChordGeometry.

Variables r_source central_angle r_earth : R.

Lemma chord_x_eq (t : R) :
  chord_x r_source central_angle r_earth t =
    (1 - t) * r_source + t * (r_earth * cos central_angle).
Proof. unfold chord_x. rewrite cos_0. ring. Qed.

Lemma chord_y_eq (t : R) :
  chord_y r_source central_angle r_earth t = t * (r_earth * sin central_angle).
Proof. unfold chord_y. rewrite sin_0. ring. Qed.

Lemma sin_cos_sqr : sin central_angle * sin central_angle + cos central_angle * cos central_angle = 1.
Proof. pose proof (sin2_cos2 central_angle) as H. unfold Rsqr in H. exact H. Qed.

(** The chord starts at the source ... *)
Lemma depth_at_source :
  0 <= r_source -> depth_at r_source central_angle r_earth 0 = r_earth - r_source.
Proof.
  intros Hs. unfold depth_at. rewrite chord_x_eq, chord_y_eq.
  replace (((1 - 0) * r_source + 0 * (r_earth * cos central_angle)) ^ 2 +
           (0 * (r_earth * sin central_angle)) ^ 2) with (r_source ^ 2) by ring.
  rewrite sqrt_pow2 by exact Hs. reflexivity.
Qed.

(** ... and lands on the surface. *)
Lemma depth_at_intersection :
  0 <= r_earth -> depth_at r_source central_angle r_earth 1 = 0.
Proof.
  intros He. unfold depth_at. rewrite chord_x_eq, chord_y_eq.
  replace (((1 - 1) * r_source + 1 * (r_earth * cos central_angle)) ^ 2 +
           (1 * (r_earth * sin central_angle)) ^ 2)
    with (r_earth ^ 2 *
          (sin central_angle * sin central_angle + cos central_angle * cos central_angle))
    by ring.
  rewrite sin_cos_sqr, Rmult_1_r, sqrt_pow2 by exact He. ring.
Qed.



End ChordGeometry.

(** ** Valid queries *)

Lemma solver_valid_inv (r_source angle_rad r_earth : R) :
  valid (calculate_surface_intersection r_source angle_rad r_earth) ->
  0 < r_source * cos angle_rad <= r_earth.
Proof.
  intros Hv. destruct (solver_cases r_source angle_rad r_earth) as [Hno | Hyes].
  - rewrite (solver_no_intersection _ _ _ Hno) in Hv. unfold valid in Hv. simpl in Hv. lra.
  - exact Hyes.
Qed.

(** What the sampler may rely on in a valid query. *)
Lemma valid_query_inv (source_depth r_source range_m central_angle r_earth : R) :
  valid_query source_depth r_source range_m central_angle r_earth ->
  0 < r_source <= r_earth /\
  r_earth - r_source = source_depth /\
  0 <= central_angle <= PI / 2.
Proof.
  intros (Hd & Hr & angle_rad & Ha & Hres & Hv).
  rewrite <- Hres in Hv. pose proof (solver_valid_inv _ _ _ Hv) as Heff.
  rewrite (solver_intersection _ _ _ Heff) in Hres.
  injection Hres as _ Hc.
  pose proof (ratio_bounds _ _ Heff) as Hratio.
  repeat split; try lra.
  - subst central_angle. apply acos_nonneg.
  - subst central_angle. apply acos_le_PI2. lra.
Qed.

(** A horizontal ray from depth 1 under a sphere of radius 2. *)
Lemma valid_query_example :
  valid_query 1 1 (2 * acos (1 * cos 0 / 2)) (acos (1 * cos 0 / 2)) 2.
Proof.
  pose proof PI_RGT_0 as Hpi.
  split; [lra|]. split; [lra|]. exists 0. split; [lra|]. split.
  - apply solver_intersection. rewrite cos_0. lra.
  - unfold valid. simpl. pose proof (acos_nonneg (1 * cos 0 / 2)). lra.
Qed.

(** ** The sampler: results *)

(** C1, as the code has it.  [calculate_ray_depth_profile] checks no
    precondition on the intersection it is given: it fails, with numpy's
    [ValueError], exactly when [num_points <= 0], and returns a profile for
    every other call, whatever [range_m] and [central_angle] are. *)
Theorem sampler_raises_iff
    (source_depth beam_angle r_source range_m central_angle r_earth : R)
    (num_points : Z) :
  (exists e : exn,
     calculate_ray_depth_profile source_depth beam_angle r_source range_m
       central_angle r_earth num_points = Raises e) <->
  (num_points <= 0)%Z.
Proof.
  split.
  - intros [e He]. destruct (Z_le_gt_dec num_points 0) as [Hle | Hgt]; [exact Hle|].
    rewrite sampler_returns in He by lia. discriminate He.
  - intros Hle. exists ValueError. apply sampler_raises. exact Hle.
Qed.

(** C1 as stated fails: straight down from depth 1 under a sphere of radius
    2 the solver reports no intersection, and the sampler called with that
    result returns a profile all the same. *)
Lemma sampler_accepts_invalid_intersection :
  calculate_surface_intersection 1 (PI / 2) 2 = (-1, 0) /\
  ~ valid (-1, 0) /\
  exists p : RayProfile,
    calculate_ray_depth_profile 1 90 1 (-1) 0 2 100 = Returns p.
Proof.
  split; [apply solver_no_intersection; rewrite cos_PI2; lra|].
  split; [unfold valid; simpl; lra|].
  rewrite sampler_returns by lia. eexists. reflexivity.
Qed.

(** C4.  For a valid query with at least two samples the call returns a
    profile with exactly [num_points] samples in each array; the first depth
    is the source depth and the last depth is 0. *)
Theorem profile_endpoints
    (source_depth beam_angle r_source range_m central_angle r_earth : R)
    (num_points : Z) :
  valid_query source_depth r_source range_m central_angle r_earth ->
  (2 <= num_points)%Z ->
  exists p : RayProfile,
    calculate_ray_depth_profile source_depth beam_angle r_source range_m
      central_angle r_earth num_points = Returns p /\
    Z.of_nat (length (horizontal_ranges p)) = num_points /\
    Z.of_nat (length (depths_below_surface p)) = num_points /\
    nth 0 (depths_below_surface p) 0 = source_depth /\
    nth (Z.to_nat num_points - 1) (depths_below_surface p) 0 = 0.
Proof.
  intros Hq Hn. apply valid_query_inv in Hq. destruct Hq as (Hs & Hd & _).
  eexists. split; [apply sampler_returns; lia|]. simpl.
  pose proof (sampler_lengths r_source central_angle r_earth num_points) as [Hlr Hld].
  cbv zeta in Hlr, Hld. rewrite Hlr, Hld, Z2Nat.id by lia.
  split; [reflexivity|]. split; [reflexivity|].
  pose proof (sampler_nth_depth r_source central_angle r_earth num_points) as Hnth.
  cbv zeta in Hnth. rewrite !Hnth by lia.
  rewrite linspace_unit_first, linspace_unit_last by lia.
  rewrite depth_at_source, depth_at_intersection by lra.
  split; [exact Hd | reflexivity].
Qed.

Lemma profile_endpoints_witness :
  valid_query 1 1 (2 * acos (1 * cos 0 / 2)) (acos (1 * cos 0 / 2)) 2 /\
  (2 <= 3)%Z /\
  exists p : RayProfile,
    calculate_ray_depth_profile 1 0 1 (2 * acos (1 * cos 0 / 2))
      (acos (1 * cos 0 / 2)) 2 3 = Returns p /\
    Z.of_nat (length (horizontal_ranges p)) = 3%Z /\
    Z.of_nat (length (depths_below_surface p)) = 3%Z /\
    nth 0 (depths_below_surface p) 0 = 1 /\
    nth (Z.to_nat 3 - 1) (depths_below_surface p) 0 = 0.
Proof.
  split; [exact valid_query_example|]. split; [lia|].
  apply (profile_endpoints 1 0 1 _ _ 2 3 valid_query_example). lia.
Defined.

(** C10.  [source_depth], [beam_angle] and [range_m] have no influence on
    the result: two calls that agree on the other four arguments return the
    same value. *)
Theorem unused_arguments
    (source_depth1 beam_angle1 range_m1 source_depth2 beam_angle2 range_m2 : R)
    (r_source central_angle r_earth : R) (num_points : Z) :
  calculate_ray_depth_profile source_depth1 beam_angle1 r_source range_m1
    central_angle r_earth num_points =
  calculate_ray_depth_profile source_depth2 beam_angle2 r_source range_m2
    central_angle r_earth num_points.
Proof. reflexivity. Qed.

(** ** Depths of a valid query *)




(** ** Horizontal ranges along the chord *)

Lemma atan_le (x y : R) : x <= y -> atan x <= atan y.
Proof.
  intros [Hlt | ->]; [left; apply atan_increasing; exact Hlt | right; reflexivity].
Qed.

Lemma arctan2_right_half (y x : R) : 0 < x -> Np.arctan2 y x = atan (y / x).
Proof.
  intros Hx. unfold Np.arctan2.
  replace (0 <? x) with true by (symmetry; apply Rltb_true; exact Hx). reflexivity.
Qed.

Lemma arctan2_up (y : R) : 0 < y -> Np.arctan2 y 0 = PI / 2.
Proof.
  intros Hy. unfold Np.arctan2.
  replace (0 <? 0) with false by (symmetry; apply Rltb_false; lra).
  replace (0 <? y) with true by (symmetry; apply Rltb_true; exact Hy). reflexivity.
Qed.

Section RangeMonotone.

Variables r_source central_angle r_earth : R.
Hypothesis Hsource : 0 < r_source <= r_earth.
Hypothesis Hangle : 0 <= central_angle <= PI / 2.

Let X := chord_x r_source central_angle r_earth.
Let Y := chord_y r_source central_angle r_earth.

Lemma intersect_x_nonneg : 0 <= r_earth * cos central_angle.
Proof.
  apply Rmult_le_pos; [lra|]. pose proof PI_RGT_0. apply cos_ge_0; lra.
Qed.

Lemma intersect_y_nonneg : 0 <= r_earth * sin central_angle.
Proof.
  apply Rmult_le_pos; [lra|]. pose proof PI_RGT_0. apply sin_ge_0; lra.
Qed.

(** Before its end the chord is strictly in the right half-plane. *)
Lemma chord_x_pos (t : R) : 0 <= t < 1 -> 0 < X t.
Proof.
  intros Ht. unfold X. rewrite chord_x_eq.
  pose proof intersect_x_nonneg as Hc.
  assert (0 < (1 - t) * r_source) by (apply Rmult_lt_0_compat; lra).
  assert (0 <= t * (r_earth * cos central_angle)) by (apply Rmult_le_pos; lra).
  lra.
Qed.

Lemma chord_x_end : X 1 = r_earth * cos central_angle.
Proof. unfold X. rewrite chord_x_eq. ring. Qed.

Lemma chord_y_end : Y 1 = r_earth * sin central_angle.
Proof. unfold Y. rewrite chord_y_eq. ring. Qed.

(** The slope [Y t / X t] grows with [t] while the chord is in the right
    half-plane. *)
Lemma chord_slope_mono (t1 t2 : R) :
  0 <= t1 <= t2 -> t2 <= 1 -> 0 < X t1 -> 0 < X t2 ->
  Y t1 / X t1 <= Y t2 / X t2.
Proof.
  intros Ht1 Ht2 Hx1 Hx2.
  assert (Hcross : Y t1 * X t2 <= Y t2 * X t1).
  { unfold X, Y. rewrite !chord_x_eq, !chord_y_eq.
    pose proof intersect_y_nonneg as Hs.
    assert (Hgap : 0 <= (t2 - t1) * (r_source * (r_earth * sin central_angle))).
    { apply Rmult_le_pos; [lra|]. apply Rmult_le_pos; lra. }
    replace (t2 * (r_earth * sin central_angle) *
             ((1 - t1) * r_source + t1 * (r_earth * cos central_angle)))
      with (t1 * (r_earth * sin central_angle) *
            ((1 - t2) * r_source + t2 * (r_earth * cos central_angle)) +
            (t2 - t1) * (r_source * (r_earth * sin central_angle))) by ring.
    lra. }
  apply Rmult_le_reg_r with (X t1 * X t2); [apply Rmult_lt_0_compat; assumption|].
  replace (Y t1 / X t1 * (X t1 * X t2)) with (Y t1 * X t2) by (field; lra).
  replace (Y t2 / X t2 * (X t1 * X t2)) with (Y t2 * X t1) by (field; lra).
  exact Hcross.
Qed.

(** The polar angle of a chord point never exceeds a quarter turn. *)
Lemma chord_angle_le_PI2 (t : R) :
  0 <= t <= 1 -> Np.arctan2 (Y t) (X t) <= PI / 2.
Proof.
  intros Ht. destruct (Rlt_le_dec t 1) as [Hlt | Hge].
  - rewrite arctan2_right_half by (apply chord_x_pos; lra).
    left. apply atan_bound.
  - replace t with 1 by lra. rewrite chord_x_end, chord_y_end.
    pose proof intersect_x_nonneg as Hc. pose proof intersect_y_nonneg as Hs.
    pose proof PI_RGT_0 as Hpi.
    destruct Hc as [Hc | Hc].
    + rewrite arctan2_right_half by exact Hc. left. apply atan_bound.
    + rewrite <- Hc. unfold Np.arctan2.
      replace (0 <? 0) with false by (symmetry; apply Rltb_false; lra).
      destruct (0 <? r_earth * sin central_angle); [lra|].
      destruct (r_earth * sin central_angle <? 0); lra.
Qed.

Lemma chord_angle_mono (t1 t2 : R) :
  0 <= t1 <= t2 -> t2 <= 1 ->
  Np.arctan2 (Y t1) (X t1) <= Np.arctan2 (Y t2) (X t2).
Proof.
  intros Ht1 Ht2. destruct (Rlt_le_dec t2 1) as [Hlt | Hge].
  - rewrite !arctan2_right_half by (apply chord_x_pos; lra).
    apply atan_le. apply chord_slope_mono; try lra; apply chord_x_pos; lra.
  - replace t2 with 1 in * by lra. clear Hge Ht2.
    destruct (Rlt_le_dec t1 1) as [Hlt1 | Hge1];
      [| replace t1 with 1 by lra; lra].
    pose proof intersect_x_nonneg as Hc. destruct Hc as [Hc | Hc].
    + assert (Hx2 : 0 < X 1) by (rewrite chord_x_end; exact Hc).
      rewrite !arctan2_right_half by (try exact Hx2; apply chord_x_pos; lra).
      apply atan_le. apply chord_slope_mono; try lra. apply chord_x_pos; lra.
    + (* the intersection is straight above the centre *)
      assert (Hcos : cos central_angle = 0).
      { symmetry in Hc. apply Rmult_integral in Hc. destruct Hc; lra. }
      assert (Hsin : 0 < sin central_angle).
      { pose proof PI_RGT_0. pose proof (sin_cos_sqr central_angle) as Hsq.
        rewrite Hcos in Hsq.
        assert (0 <= sin central_angle) by (apply sin_ge_0; lra).
        destruct (Req_dec (sin central_angle) 0) as [Hz | Hnz]; [|lra].
        rewrite Hz in Hsq. lra. }
      rewrite chord_x_end, chord_y_end, <- Hc.
      rewrite arctan2_up by (apply Rmult_lt_0_compat; lra).
      apply chord_angle_le_PI2. lra.
Qed.

Lemma range_at_mono (t1 t2 : R) :
  0 <= t1 <= t2 -> t2 <= 1 ->
  range_at r_source central_angle r_earth t1 <=
  range_at r_source central_angle r_earth t2.
Proof.
  intros Ht1 Ht2. unfold range_at. apply Rmult_le_compat_l; [lra|].
  apply chord_angle_mono; assumption.
Qed.

End RangeMonotone.

(** C6.  For [0 < r_source <= r_earth], a central angle in [0, PI/2] and at
    least two samples, the call returns a profile whose horizontal ranges
    are non-decreasing in sample order. *)
Theorem ranges_nondecreasing
    (source_depth beam_angle r_source range_m central_angle r_earth : R)
    (num_points : Z) :
  0 < r_source <= r_earth ->
  0 <= central_angle <= PI / 2 ->
  (2 <= num_points)%Z ->
  exists p : RayProfile,
    calculate_ray_depth_profile source_depth beam_angle r_source range_m
      central_angle r_earth num_points = Returns p /\
    forall i j : nat,
      (i <= j < Z.to_nat num_points)%nat ->
      nth i (horizontal_ranges p) 0 <= nth j (horizontal_ranges p) 0.
Proof.
  intros Hs Hc Hn. eexists. split; [apply sampler_returns; lia|]. simpl.
  intros i j Hij.
  pose proof (sampler_nth_range r_source central_angle r_earth num_points) as Hnth.
  cbv zeta in Hnth. rewrite !Hnth by lia.
  pose proof (linspace_unit_nth_bounds (Z.to_nat num_points) i ltac:(lia)) as Bi.
  pose proof (linspace_unit_nth_bounds (Z.to_nat num_points) j ltac:(lia)) as Bj.
  pose proof (linspace_unit_nth_mono (Z.to_nat num_points) i j ltac:(lia) ltac:(lia)) as Hmono.
  apply range_at_mono; lra.
Qed.

Lemma ranges_nondecreasing_witness :
  0 < 1 <= 2 /\
  0 <= acos (1 * cos 0 / 2) <= PI / 2 /\
  (2 <= 3)%Z /\
  exists p : RayProfile,
    calculate_ray_depth_profile 1 0 1 (2 * acos (1 * cos 0 / 2))
      (acos (1 * cos 0 / 2)) 2 3 = Returns p /\
    forall i j : nat,
      (i <= j < Z.to_nat 3)%nat ->
      nth i (horizontal_ranges p) 0 <= nth j (horizontal_ranges p) 0.
Proof.
  assert (Hs : 0 < 1 <= 2) by lra.
  assert (Hc : 0 <= acos (1 * cos 0 / 2) <= PI / 2).
  { split; [apply acos_nonneg | apply acos_le_PI2; rewrite cos_0; lra]. }
  split; [exact Hs|]. split; [exact Hc|]. split; [lia|].
  apply (ranges_nondecreasing 1 0 1 _ _ 2 3 Hs Hc). lia.
Defined.

(** * Further properties of the solver *)

(** X1.  The solver does not tell an upward beam from a downward one: the
    launch angle enters only through its cosine, so [-angle_rad] and
    [angle_rad] give the same result. *)
Theorem solver_even_in_angle (r_source angle_rad r_earth : R) :
  calculate_surface_intersection r_source (- angle_rad) r_earth =
  calculate_surface_intersection r_source angle_rad r_earth.
Proof.
  unfold calculate_surface_intersection. rewrite cos_neg. reflexivity.
Qed.

(** X18.  A sphere of radius zero or less has no intersection: the first
    guard answers before [r_earth] is divided by. *)
Theorem nonpositive_radius_invalid (r_source angle_rad r_earth : R) :
  r_earth <= 0 ->
  calculate_surface_intersection r_source angle_rad r_earth = (-1, 0).
Proof.
  intros He. apply solver_no_intersection.
  destruct (Rle_lt_dec (r_source * cos angle_rad) 0); [left | right]; lra.
Qed.

Lemma nonpositive_radius_invalid_witness :
  0 <= 0 /\ calculate_surface_intersection 1 0 0 = (-1, 0).
Proof.
  assert (He : 0 <= 0) by lra.
  split; [exact He | exact (nonpositive_radius_invalid 1 0 0 He)].
Defined.

(** * Further properties of the sampler *)

Lemma range_at_source (r_source central_angle r_earth : R) :
  0 < r_source -> range_at r_source central_angle r_earth 0 = 0.
Proof.
  intros Hs. unfold range_at. rewrite chord_x_eq, chord_y_eq.
  rewrite arctan2_right_half by lra.
  replace (0 * (r_earth * sin central_angle) /
           ((1 - 0) * r_source + 0 * (r_earth * cos central_angle))) with 0
    by (field; lra).
  rewrite atan_0. ring.
Qed.

(** X5.  What the maximum is: whenever at least one sample is asked for, the
    reported [max_depth] is the depth of one sample, [max_depth_range] is
    the horizontal range of that same sample, no sample is deeper, and
    every earlier sample is strictly shallower (the first maximum wins). *)
Theorem max_depth_is_first_maximum
    (source_depth beam_angle r_source range_m central_angle r_earth : R)
    (num_points : Z) :
  (1 <= num_points)%Z ->
  exists (p : RayProfile) (i : nat),
    calculate_ray_depth_profile source_depth beam_angle r_source range_m
      central_angle r_earth num_points = Returns p /\
    (i < Z.to_nat num_points)%nat /\
    nth i (depths_below_surface p) 0 = max_depth p /\
    nth i (horizontal_ranges p) 0 = max_depth_range p /\
    Forall (fun d => d <= max_depth p) (depths_below_surface p) /\
    forall j : nat, (j < i)%nat -> nth j (depths_below_surface p) 0 < max_depth p.
Proof.
  intros Hn.
  set (depths := map (depth_at r_source central_angle r_earth)
                   (Np.linspace 0 1 (Z.to_nat num_points))).
  assert (Hlen : length depths = Z.to_nat num_points)
    by (unfold depths; rewrite length_map, linspace_length; reflexivity).
  assert (Hne : depths <> []) by (intros E; rewrite E in Hlen; simpl in Hlen; lia).
  eexists. exists (Np.argmax depths).
  split; [apply sampler_returns; exact Hn|]. simpl. fold depths.
  split; [rewrite <- Hlen; apply argmax_lt_length; exact Hne|].
  split; [reflexivity|]. split; [reflexivity|]. split.
  - apply Forall_forall. intros d Hin. apply argmax_is_max. exact Hin.
  - intros j Hj. apply argmax_first. exact Hj.
Qed.

Lemma max_depth_is_first_maximum_witness :
  (1 <= 3)%Z /\
  exists (p : RayProfile) (i : nat),
    calculate_ray_depth_profile 1 0 1 (-1) 0 2 3 = Returns p /\
    (i < Z.to_nat 3)%nat /\
    nth i (depths_below_surface p) 0 = max_depth p /\
    nth i (horizontal_ranges p) 0 = max_depth_range p /\
    Forall (fun d => d <= max_depth p) (depths_below_surface p) /\
    forall j : nat, (j < i)%nat -> nth j (depths_below_surface p) 0 < max_depth p.
Proof.
  split; [lia|]. apply (max_depth_is_first_maximum 1 0 1 (-1) 0 2 3). lia.
Defined.

(** When no entry exceeds the first one, [np.argmax] answers 0. *)
Lemma argmax_head (l : list R) :
  (forall x : R, In x l -> x <= nth 0 l 0) -> Np.argmax l = O.
Proof.
  intros Hhead. destruct (Np.argmax l) as [|k] eqn:Hk; [reflexivity | exfalso].
  assert (Hne : l <> []) by (intros E; rewrite E in Hk; discriminate Hk).
  pose proof (argmax_lt_length l Hne) as Hlt.
  pose proof (argmax_first l O ltac:(lia)) as Hfirst.
  pose proof (Hhead (nth (Np.argmax l) l 0) (nth_In l 0 Hlt)) as Hle.
  lra.
Qed.

(** Along a chord that starts tangentially, no point is closer to the centre
    than the source. *)
Lemma tangent_chord_depth (r_source central_angle r_earth t : R) :
  0 <= r_source ->
  r_earth * cos central_angle = r_source ->
  depth_at r_source central_angle r_earth t <= r_earth - r_source.
Proof.
  intros Hs Htan. unfold depth_at. rewrite chord_x_eq, chord_y_eq, Htan.
  replace ((1 - t) * r_source + t * r_source) with r_source by ring.
  assert (Hsq : r_source ^ 2 <= r_source ^ 2 + (t * (r_earth * sin central_angle)) ^ 2).
  { pose proof (pow2_ge_0 (t * (r_earth * sin central_angle))). lra. }
  apply sqrt_le_1_alt in Hsq. rewrite (sqrt_pow2 r_source Hs) in Hsq. lra.
Qed.

(** X6.  A horizontal launch never goes deeper than its source: fed with the
    solver's result for [angle_rad = 0], the sampler reports the source
    depth as maximum depth, at horizontal range 0. *)
Theorem horizontal_launch_max_depth
    (source_depth beam_angle r_source r_earth : R) (num_points : Z) :
  0 < r_source <= r_earth ->
  (1 <= num_points)%Z ->
  exists p : RayProfile,
    calculate_ray_depth_profile source_depth beam_angle r_source
      (fst (calculate_surface_intersection r_source 0 r_earth))
      (snd (calculate_surface_intersection r_source 0 r_earth))
      r_earth num_points = Returns p /\
    max_depth p = r_earth - r_source /\
    max_depth_range p = 0.
Proof.
  intros Hs Hn.
  assert (Heff : 0 < r_source * cos 0 <= r_earth) by (rewrite cos_0; lra).
  rewrite (solver_intersection _ _ _ Heff). simpl fst. simpl snd.
  set (c := acos (r_source * cos 0 / r_earth)).
  assert (Htan : r_earth * cos c = r_source).
  { unfold c. pose proof (ratio_bounds _ _ Heff) as Hratio.
    rewrite cos_acos by lra. rewrite cos_0. field. lra. }
  eexists. split; [apply sampler_returns; exact Hn|]. simpl.
  set (t := Np.linspace 0 1 (Z.to_nat num_points)).
  set (depths := map (depth_at r_source c r_earth) t).
  pose proof (sampler_nth_depth r_source c r_earth num_points) as Hd.
  pose proof (sampler_nth_range r_source c r_earth num_points) as Hr.
  cbv zeta in Hd, Hr. fold t in Hd, Hr. fold depths in Hd.
  assert (Hd0 : nth 0 depths 0 = r_earth - r_source).
  { rewrite Hd by lia. unfold t. rewrite linspace_unit_first by lia.
    apply depth_at_source. lra. }
  assert (Hidx : Np.argmax depths = O).
  { apply argmax_head. intros x Hin. rewrite Hd0.
    apply in_map_iff in Hin. destruct Hin as (ti & <- & _).
    apply tangent_chord_depth; [lra | exact Htan]. }
  rewrite Hidx. split; [exact Hd0|].
  rewrite Hr by lia. unfold t. rewrite linspace_unit_first by lia.
  apply range_at_source. lra.
Qed.

Lemma horizontal_launch_max_depth_witness :
  0 < 1 <= 2 /\ (1 <= 3)%Z /\
  exists p : RayProfile,
    calculate_ray_depth_profile 1 0 1
      (fst (calculate_surface_intersection 1 0 2))
      (snd (calculate_surface_intersection 1 0 2)) 2 3 = Returns p /\
    max_depth p = 2 - 1 /\
    max_depth_range p = 0.
Proof.
  assert (Hs : 0 < 1 <= 2) by lra.
  split; [exact Hs|]. split; [lia|].
  apply (horizontal_launch_max_depth 1 0 1 2 3 Hs). lia.
Defined.

(** X7.  With [num_points = 1] the profile is the source alone: one sample
    at horizontal range 0 and depth [r_earth - r_source]; the intersection
    point is not sampled. *)
Theorem single_sample_profile
    (source_depth beam_angle r_source range_m central_angle r_earth : R) :
  0 < r_source ->
  calculate_ray_depth_profile source_depth beam_angle r_source range_m
    central_angle r_earth 1 =
  Returns (mkRayProfile [0] [r_earth - r_source] (r_earth - r_source) 0).
Proof.
  intros Hs. rewrite sampler_returns by lia.
  change (Np.linspace 0 1 (Z.to_nat 1)) with [0]. cbn [map Np.argmax nth].
  rewrite range_at_source by exact Hs.
  rewrite depth_at_source by lra. reflexivity.
Qed.

Lemma single_sample_profile_witness :
  0 < 1 /\
  calculate_ray_depth_profile 1 0 1 (-1) 0 2 1 =
  Returns (mkRayProfile [0] [2 - 1] (2 - 1) 0).
Proof.
  assert (Hs : 0 < 1) by lra.
  split; [exact Hs | exact (single_sample_profile 1 0 1 (-1) 0 2 Hs)].
Defined.

(** * The command-line program *)

Lemma Rabs_le_inv (x a : R) : Rabs x <= a -> - a <= x <= a.
Proof. unfold Rabs. destruct (Rcase_abs x); lra. Qed.

Lemma deg_to_rad_bounds (beam_angle : R) :
  Rabs beam_angle <= 90 ->
  - (PI / 2) <= beam_angle * DEG_TO_RAD <= PI / 2.
Proof.
  intros H. unfold DEG_TO_RAD. pose proof PI_RGT_0 as Hpi.
  apply Rabs_le_inv in H. destruct H as [Hlo Hhi].
  assert (Hpos : 0 <= PI / 180) by lra.
  pose proof (Rmult_le_compat_r _ _ _ Hpos Hhi) as H1.
  pose proof (Rmult_le_compat_r _ _ _ Hpos Hlo) as H2.
  lra.
Qed.

Lemma deg_to_rad_bounds_lt (beam_angle : R) :
  Rabs beam_angle < 90 ->
  - (PI / 2) < beam_angle * DEG_TO_RAD < PI / 2.
Proof.
  intros H. unfold DEG_TO_RAD. pose proof PI_RGT_0 as Hpi.
  apply Rabs_def2 in H. destruct H as [Hhi Hlo].
  assert (Hpos : 0 < PI / 180) by lra.
  pose proof (Rmult_lt_compat_r _ _ _ Hpos Hhi) as H1.
  pose proof (Rmult_lt_compat_r _ _ _ Hpos Hlo) as H2.
  lra.
Qed.

Lemma main_validated (source_depth beam_angle earth_radius range_m central_angle : R) :
  0 <= source_depth < earth_radius ->
  Rabs beam_angle <= 90 ->
  calculate_surface_intersection (earth_radius - source_depth)
    (beam_angle * DEG_TO_RAD) earth_radius = (range_m, central_angle) ->
  main source_depth beam_angle earth_radius =
    Completed range_m central_angle
      (if range_m <? 0 then None else Some (range_context (range_m / 1000)))
      (if range_m <? 0 then None
       else if 1 / 1000000 <? Rabs beam_angle then
         if 0 <? source_depth / tan (beam_angle * DEG_TO_RAD)
         then Some (source_depth / tan (beam_angle * DEG_TO_RAD)) else None
       else None)
      (if 0 <? range_m then
         Some (plot_geometry source_depth beam_angle (earth_radius - source_depth)
                 range_m central_angle earth_radius)
       else None).
Proof.
  intros Hd Ha Hres. unfold main.
  replace (source_depth <? 0) with false by (symmetry; apply Rltb_false; lra).
  replace (earth_radius <=? source_depth) with false by (symmetry; apply Rleb_false; lra).
  replace (90 <? Rabs beam_angle) with false by (symmetry; apply Rltb_false; lra).
  rewrite Hres. reflexivity.
Qed.

Lemma cos_lt_1 (x : R) : - (PI / 2) < x < PI / 2 -> x <> 0 -> cos x < 1.
Proof.
  intros Hx Hne. pose proof PI_RGT_0 as Hpi. rewrite <- cos_0.
  destruct (Rlt_le_dec 0 x) as [Hpos | Hneg].
  - apply cos_decreasing_1; lra.
  - rewrite <- (cos_neg x). apply cos_decreasing_1; lra.
Qed.

(** What the solver answers to a validated query whose beam is not vertical. *)
Lemma main_solver_result (source_depth beam_angle earth_radius : R) :
  0 <= source_depth < earth_radius ->
  Rabs beam_angle < 90 ->
  exists range_m central_angle : R,
    calculate_surface_intersection (earth_radius - source_depth)
      (beam_angle * DEG_TO_RAD) earth_radius = (range_m, central_angle) /\
    0 <= range_m /\
    (0 < range_m <-> 0 < source_depth \/ beam_angle <> 0).
Proof.
  intros Hd Ha. pose proof (deg_to_rad_bounds_lt _ Ha) as Hrad.
  set (angle_rad := beam_angle * DEG_TO_RAD) in *.
  assert (Hcos : 0 < cos angle_rad) by (apply cos_gt_0; lra).
  pose proof (COS_bound angle_rad) as [_ Hcos1].
  assert (Heff : 0 < (earth_radius - source_depth) * cos angle_rad <= earth_radius).
  { split; [apply Rmult_lt_0_compat; lra|].
    apply Rle_trans with ((earth_radius - source_depth) * 1);
      [apply Rmult_le_compat_l|]; lra. }
  pose proof (ratio_bounds _ _ Heff) as Hratio.
  set (ratio := (earth_radius - source_depth) * cos angle_rad / earth_radius) in *.
  exists (earth_radius * acos ratio), (acos ratio).
  split; [apply solver_intersection; exact Heff|].
  pose proof (acos_nonneg ratio) as Hacos.
  split; [apply Rmult_le_pos; lra|].
  assert (Hzero : beam_angle = 0 <-> angle_rad = 0).
  { unfold angle_rad, DEG_TO_RAD. pose proof PI_RGT_0 as Hpi. split.
    - intros ->. ring.
    - intros H0. apply Rmult_integral in H0. destruct H0; lra. }
  split.
  - intros Hpos.
    destruct (Rlt_le_dec 0 source_depth) as [Hs | Hs]; [left; exact Hs | right].
    intros Hb. apply Hzero in Hb.
    assert (Hone : ratio = 1).
    { unfold ratio. rewrite Hb, cos_0. replace source_depth with 0 by lra. field. lra. }
    rewrite Hone, acos_1 in Hpos. lra.
  - intros Hwhy.
    assert (Hlt : ratio < 1).
    { destruct (Req_dec ratio 1) as [Hone | Hne]; [exfalso | lra].
      apply ratio_eq_1 in Hone; [|lra].
      destruct Hwhy as [Hs | Hb].
      - assert ((earth_radius - source_depth) * cos angle_rad <=
                (earth_radius - source_depth) * 1)
          by (apply Rmult_le_compat_l; lra).
        lra.
      - assert (Hc : cos angle_rad < 1).
        { apply cos_lt_1; [lra|]. intros E. apply Hb. apply Hzero. exact E. }
        assert ((earth_radius - source_depth) * cos angle_rad <
                (earth_radius - source_depth) * 1)
          by (apply Rmult_lt_compat_l; lra).
        lra. }
    pose proof (acos_bound_lt ratio ltac:(lra)) as [Hgt _].
    apply Rmult_lt_0_compat; lra.
Qed.

(** X9.  For validated inputs with a beam that is not vertical the report
    always shows an intersection: the range is not negative and a context
    line is chosen, so "No surface intersection" is never printed; the plot
    is made when the range is positive, and a source at the surface with a
    horizontal beam has range 0 and is not plotted. *)
Theorem main_reports_intersection (source_depth beam_angle earth_radius : R) :
  0 <= source_depth < earth_radius ->
  Rabs beam_angle < 90 ->
  exists (range_m central_angle : R) (context : string)
         (flat_earth : option R) (plot : option (pyresult (R * R))),
    main source_depth beam_angle earth_radius =
      Completed range_m central_angle (Some context) flat_earth plot /\
    0 <= range_m /\
    (plot <> None <-> 0 < range_m) /\
    (source_depth = 0 -> beam_angle = 0 -> range_m = 0 /\ plot = None).
Proof.
  intros Hd Ha.
  destruct (main_solver_result _ _ _ Hd Ha) as (range_m & central_angle & Hres & H0 & Hpos).
  rewrite (main_validated _ _ _ _ _ Hd (Rlt_le _ _ Ha) Hres).
  replace (range_m <? 0) with false by (symmetry; apply Rltb_false; lra).
  do 5 eexists. split; [reflexivity|]. split; [exact H0|].
  destruct (0 <? range_m) eqn:Hcmp.
  - apply Rltb_true in Hcmp. split.
    + split; [intros _; exact Hcmp | intros _; discriminate].
    + intros Hs Hb. exfalso. apply Hpos in Hcmp. destruct Hcmp; lra.
  - apply Rltb_false in Hcmp. split.
    + split; [intros H; congruence | intros H; lra].
    + intros _ _. split; [lra | reflexivity].
Qed.

Lemma main_reports_intersection_witness :
  0 <= 1 < 2 /\ Rabs 0 < 90 /\
  exists (range_m central_angle : R) (context : string)
         (flat_earth : option R) (plot : option (pyresult (R * R))),
    main 1 0 2 = Completed range_m central_angle (Some context) flat_earth plot /\
    0 <= range_m /\
    (plot <> None <-> 0 < range_m) /\
    (1 = 0 -> 0 = 0 -> range_m = 0 /\ plot = None).
Proof.
  assert (Hd : 0 <= 1 < 2) by lra.
  assert (Ha : Rabs 0 < 90) by (rewrite Rabs_R0; lra).
  split; [exact Hd|]. split; [exact Ha|].
  exact (main_reports_intersection 1 0 2 Hd Ha).
Defined.

(** X10.  The flat-Earth comparison is printed only for a beam pointing
    down by more than a millionth of a degree from a source below the
    surface; upward and horizontal beams, and a source at the surface, get
    none. *)
Theorem main_flat_earth_iff (source_depth beam_angle earth_radius : R) :
  0 <= source_depth < earth_radius ->
  Rabs beam_angle < 90 ->
  exists (range_m central_angle : R) (context : option string)
         (flat_earth : option R) (plot : option (pyresult (R * R))),
    main source_depth beam_angle earth_radius =
      Completed range_m central_angle context flat_earth plot /\
    (flat_earth <> None <-> 1 / 1000000 < beam_angle /\ 0 < source_depth) /\
    (forall x : R, flat_earth = Some x ->
       x = source_depth / tan (beam_angle * DEG_TO_RAD) /\ 0 < x).
Proof.
  intros Hd Ha.
  destruct (main_solver_result _ _ _ Hd Ha) as (range_m & central_angle & Hres & H0 & _).
  rewrite (main_validated _ _ _ _ _ Hd (Rlt_le _ _ Ha) Hres).
  replace (range_m <? 0) with false by (symmetry; apply Rltb_false; lra).
  do 5 eexists. split; [reflexivity|].
  pose proof (deg_to_rad_bounds_lt _ Ha) as Hrad.
  set (angle_rad := beam_angle * DEG_TO_RAD) in *.
  assert (Hsign : 0 < beam_angle -> 0 < angle_rad).
  { intros Hb. unfold angle_rad, DEG_TO_RAD. pose proof PI_RGT_0.
    apply Rmult_lt_0_compat; lra. }
  assert (Hsign' : beam_angle < 0 -> angle_rad < 0).
  { intros Hb. unfold angle_rad, DEG_TO_RAD. pose proof PI_RGT_0.
    assert (0 < - beam_angle * (PI / 180)) by (apply Rmult_lt_0_compat; lra). lra. }
  destruct (1 / 1000000 <? Rabs beam_angle) eqn:Hbig.
  - apply Rltb_true in Hbig.
    destruct (0 <? source_depth / tan angle_rad) eqn:Hfe.
    + apply Rltb_true in Hfe. split.
      * split; [intros _ | intros _; discriminate].
        destruct (Rlt_le_dec 0 beam_angle) as [Hb | Hb].
        -- rewrite Rabs_right in Hbig by lra. split; [exact Hbig|].
           destruct (proj1 Hd) as [Hs | Hs]; [exact Hs | exfalso].
           rewrite <- Hs in Hfe. unfold Rdiv in Hfe. rewrite Rmult_0_l in Hfe. lra.
        -- exfalso. destruct Hb as [Hb | Hb];
             [| rewrite Hb, Rabs_R0 in Hbig; lra].
           pose proof (tan_lt_0 angle_rad ltac:(lra) (Hsign' Hb)) as Htan.
           assert (Hinv : / tan angle_rad < 0) by (apply Rinv_lt_0_compat; exact Htan).
           unfold Rdiv in Hfe.
           assert (0 <= source_depth * - / tan angle_rad)
             by (apply Rmult_le_pos; lra).
           lra.
      * intros x Hx. injection Hx as <-. split; [reflexivity | exact Hfe].
    + apply Rltb_false in Hfe. split.
      * split; [intros H; congruence|]. intros [Hb Hs]. exfalso.
        pose proof (tan_gt_0 angle_rad (Hsign ltac:(lra)) ltac:(lra)) as Htan.
        assert (0 < source_depth / tan angle_rad)
          by (apply Rdiv_lt_0_compat; assumption).
        lra.
      * intros x Hx. discriminate Hx.
  - apply Rltb_false in Hbig. split.
    + split; [intros H; congruence|]. intros [Hb Hs]. exfalso.
      rewrite Rabs_right in Hbig by lra. lra.
    + intros x Hx. discriminate Hx.
Qed.

Lemma main_flat_earth_iff_witness :
  0 <= 1 < 2 /\ Rabs 45 < 90 /\
  exists (range_m central_angle : R) (context : option string)
         (flat_earth : option R) (plot : option (pyresult (R * R))),
    main 1 45 2 = Completed range_m central_angle context flat_earth plot /\
    (flat_earth <> None <-> 1 / 1000000 < 45 /\ 0 < 1) /\
    (forall x : R, flat_earth = Some x ->
       x = 1 / tan (45 * DEG_TO_RAD) /\ 0 < x).
Proof.
  assert (Hd : 0 <= 1 < 2) by lra.
  assert (Ha : Rabs 45 < 90) by (rewrite Rabs_right; lra).
  split; [exact Hd|]. split; [exact Ha|].
  exact (main_flat_earth_iff 1 45 2 Hd Ha).
Defined.

(** * The subplot grid *)

Lemma ceil_sqrt_bounds (n : nat) :
  (1 <= n)%nat ->
  (1 <= PeComparison.ceil_sqrt n /\
   (PeComparison.ceil_sqrt n - 1) * (PeComparison.ceil_sqrt n - 1) < n /\
   n <= PeComparison.ceil_sqrt n * PeComparison.ceil_sqrt n)%nat.
Proof.
  intros Hn. unfold PeComparison.ceil_sqrt.
  pose proof (Nat.sqrt_spec n ltac:(lia)) as [Hlo Hhi]. cbv zeta.
  set (s := Nat.sqrt n) in *.
  destruct (Nat.eqb_spec (s * s) n) as [Heq | Hne].
  - assert (1 <= s)%nat by (destruct s; simpl in *; lia).
    repeat split; try lia; nia.
  - replace (S s - 1)%nat with s by lia. repeat split; lia.
Qed.

Lemma ceil_div_bounds (n c : nat) :
  (1 <= c)%nat -> (1 <= n)%nat ->
  (1 <= PeComparison.ceil_div n c /\
   n <= PeComparison.ceil_div n c * c /\
   (PeComparison.ceil_div n c - 1) * c < n)%nat.
Proof.
  intros Hc Hn. unfold PeComparison.ceil_div.
  pose proof (Nat.div_mod_eq (n + c - 1) c) as Hdm.
  pose proof (Nat.mod_upper_bound (n + c - 1) c ltac:(lia)) as Hmod.
  set (r := ((n + c - 1) / c)%nat) in *.
  set (m := ((n + c - 1) mod c)%nat) in *.
  assert (Hr : (1 <= r)%nat) by (destruct r; [nia | lia]).
  repeat split; try assumption; nia.
Qed.

(** The natural-number ceilings are the ceilings of the real square root and
    of the real quotient. *)
Lemma ceil_sqrt_is_ceiling (n : nat) :
  INR (PeComparison.ceil_sqrt n) - 1 < sqrt (INR n) <= INR (PeComparison.ceil_sqrt n).
Proof.
  destruct n as [|n'].
  - change (PeComparison.ceil_sqrt 0) with O. simpl INR. rewrite sqrt_0. lra.
  - pose proof (ceil_sqrt_bounds (S n') ltac:(lia)) as (Hc & Hlo & Hhi).
    set (c := PeComparison.ceil_sqrt (S n')) in *.
    assert (Hc0 : 0 <= INR c) by apply pos_INR.
    split.
    + apply lt_INR in Hlo. rewrite mult_INR, minus_INR in Hlo by lia.
      simpl (INR 1) in Hlo.
      assert (Hpos : 0 <= INR c - 1) by (apply le_INR in Hc; simpl in Hc; lra).
      rewrite <- (sqrt_square (INR c - 1)) by exact Hpos.
      apply sqrt_lt_1_alt. split; [apply Rmult_le_pos; lra | exact Hlo].
    + apply le_INR in Hhi. rewrite mult_INR in Hhi.
      rewrite <- (sqrt_square (INR c)) by exact Hc0.
      apply sqrt_le_1_alt. exact Hhi.
Qed.

Lemma ceil_div_is_ceiling (n c : nat) :
  (1 <= c)%nat -> (1 <= n)%nat ->
  INR (PeComparison.ceil_div n c) - 1 < INR n / INR c <= INR (PeComparison.ceil_div n c).
Proof.
  intros Hc Hn. pose proof (ceil_div_bounds n c Hc Hn) as (Hr & Hhi & Hlo).
  set (r := PeComparison.ceil_div n c) in *.
  assert (Hcpos : 0 < INR c) by (apply lt_0_INR; lia).
  apply le_INR in Hhi. apply lt_INR in Hlo.
  rewrite mult_INR in Hhi. rewrite mult_INR, minus_INR in Hlo by lia.
  simpl (INR 1) in Hlo.
  split.
  - apply Rmult_lt_reg_r with (INR c); [exact Hcpos|].
    replace (INR n / INR c * INR c) with (INR n) by (field; lra). exact Hlo.
  - apply Rmult_le_reg_r with (INR c); [exact Hcpos|].
    replace (INR n / INR c * INR c) with (INR n) by (field; lra). exact Hhi.
Qed.

(** X11.  With at least one curve the grid exists and is just large enough:
    it has a cell for every curve, and its last row is not empty. *)
Theorem grid_holds_all_curves (n_curves : nat) :
  (1 <= n_curves)%nat ->
  exists n_rows n_cols : nat,
    PeComparison.grid_layout n_curves = PeComparison.Grid n_rows n_cols /\
    (n_curves <= n_rows * n_cols)%nat /\
    ((n_rows - 1) * n_cols < n_curves)%nat.
Proof.
  intros Hn. unfold PeComparison.grid_layout. cbv zeta.
  pose proof (ceil_sqrt_bounds n_curves Hn) as (Hc & _ & _).
  destruct (PeComparison.ceil_sqrt n_curves) as [|c'] eqn:Hcols; [lia|].
  pose proof (ceil_div_bounds n_curves (S c') ltac:(lia) Hn) as (_ & Hhi & Hlo).
  eexists. eexists. split; [reflexivity|]. split; assumption.
Qed.

Lemma grid_holds_all_curves_witness :
  (1 <= 7)%nat /\
  exists n_rows n_cols : nat,
    PeComparison.grid_layout 7 = PeComparison.Grid n_rows n_cols /\
    (7 <= n_rows * n_cols)%nat /\
    ((n_rows - 1) * n_cols < 7)%nat.
Proof. split; [lia | apply (grid_holds_all_curves 7); lia]. Defined.

(** X12.  The grid is as square as it can be, the extra line given to the
    columns: the number of columns is the number of rows or one more. *)
Theorem grid_nearly_square (n_curves : nat) :
  (1 <= n_curves)%nat ->
  exists n_rows n_cols : nat,
    PeComparison.grid_layout n_curves = PeComparison.Grid n_rows n_cols /\
    (1 <= n_rows <= n_cols)%nat /\
    (n_cols <= n_rows + 1)%nat.
Proof.
  intros Hn. unfold PeComparison.grid_layout. cbv zeta.
  pose proof (ceil_sqrt_bounds n_curves Hn) as (Hc & Hclo & Hchi).
  destruct (PeComparison.ceil_sqrt n_curves) as [|c'] eqn:Hcols; [lia|].
  pose proof (ceil_div_bounds n_curves (S c') ltac:(lia) Hn) as (Hr & Hhi & Hlo).
  set (r := PeComparison.ceil_div n_curves (S c')) in *.
  replace (S c' - 1)%nat with c' in Hclo by lia.
  eexists. eexists. split; [reflexivity|].
  assert (Hrc : (r <= S c')%nat).
  { destruct (Nat.le_gt_cases r (S c')) as [H | H]; [exact H | exfalso].
    assert ((S c') * S c' <= (r - 1) * S c')%nat by (apply Nat.mul_le_mono_r; lia).
    lia. }
  assert (Hcr : (S c' <= r + 1)%nat).
  { destruct (Nat.le_gt_cases (S c') (r + 1)) as [H | H]; [exact H | exfalso].
    assert (r * S c' <= (c' - 1) * S c')%nat by (apply Nat.mul_le_mono_r; lia).
    assert ((c' - 1) * S c' <= c' * c')%nat by nia.
    lia. }
  lia.
Qed.

Lemma grid_nearly_square_witness :
  (1 <= 7)%nat /\
  exists n_rows n_cols : nat,
    PeComparison.grid_layout 7 = PeComparison.Grid n_rows n_cols /\
    (1 <= n_rows <= n_cols)%nat /\
    (n_cols <= n_rows + 1)%nat.
Proof. split; [lia | apply (grid_nearly_square 7); lia]. Defined.

(** * The precision files *)

Section PrecisionLoop.

Import PiPrecision.

Variables end_dp step : Z.

Lemma continues_true (current : Z) :
  continues current end_dp step = true <->
  (0 < step /\ current <= end_dp \/ step < 0 /\ end_dp <= current)%Z.
Proof.
  unfold continues.
  rewrite orb_true_iff, !andb_true_iff, !Z.ltb_lt, !Z.leb_le. reflexivity.
Qed.

Lemma continues_false (current : Z) :
  continues current end_dp step = false <->
  ~ (0 < step /\ current <= end_dp \/ step < 0 /\ end_dp <= current)%Z.
Proof.
  rewrite <- continues_true. destruct (continues current end_dp step); split; intros H;
    try discriminate H; try reflexivity;
    try (exfalso; apply H; reflexivity); try (intros H0; discriminate H0).
Qed.



(** The lines of [k] iterations that meet no count outside [0, INT_MAX]. *)
Lemma write_loop_lines (k : nat) :
  forall (fuel : nat) (current line_no : Z),
    (k <= fuel)%nat ->
    (forall i : nat, (i < k)%nat ->
       continues (current + Z.of_nat i * step) end_dp step = true /\
       (0 <= current + Z.of_nat i * step <= INT_MAX)%Z) ->
    continues (current + Z.of_nat k * step) end_dp step = false ->
    write_loop fuel current end_dp step line_no =
      (map (fun i : nat => line_for (line_no + Z.of_nat i) (current + Z.of_nat i * step))
         (seq 0 k), None).
Proof.
  induction k as [|k' IH]; intros fuel current line_no Hfuel Hvisit Hstop.
  - destruct fuel as [|fuel']; [reflexivity|].
    replace (current + Z.of_nat 0 * step)%Z with current in Hstop by lia.
    cbn [write_loop seq map]. rewrite Hstop. reflexivity.
  - destruct fuel as [|fuel']; [lia|].
    destruct (Hvisit O ltac:(lia)) as [Hc0 Hpos0].
    replace (current + Z.of_nat 0 * step)%Z with current in Hc0, Hpos0 by lia.
    assert (Hrest : write_loop fuel' (current + step) end_dp step (line_no + 1) =
              (map (fun i : nat => line_for (line_no + 1 + Z.of_nat i)
                                     (current + step + Z.of_nat i * step)) (seq 0 k'), None)).
    { apply IH; [lia | |].
      - intros i Hi. specialize (Hvisit (S i) ltac:(lia)).
        replace (current + step + Z.of_nat i * step)%Z
          with (current + Z.of_nat (S i) * step)%Z by lia. exact Hvisit.
      - replace (current + step + Z.of_nat k' * step)%Z
          with (current + Z.of_nat (S k') * step)%Z by lia. exact Hstop. }
    change (seq 0 (S k')) with (O :: seq 1 k'). rewrite <- seq_shift, map_cons, map_map.
    replace (line_no + Z.of_nat 0)%Z with line_no by lia.
    replace (current + Z.of_nat 0 * step)%Z with current by lia.
    assert (Hmap : map (fun i : nat => line_for (line_no + Z.of_nat (S i))
                                         (current + Z.of_nat (S i) * step)) (seq 0 k') =
                   map (fun i : nat => line_for (line_no + 1 + Z.of_nat i)
                                         (current + step + Z.of_nat i * step)) (seq 0 k')).
    { apply map_ext. intros i. f_equal; lia. }
    rewrite Hmap.
    cbn [write_loop]. rewrite Hc0, Hrest. unfold line_for.
    destruct (Z.eqb_spec current 0) as [Hz | Hnz]; [reflexivity|].
    replace ((current <? 0) || (INT_MAX <? current))%Z with false; [reflexivity|].
    symmetry. apply orb_false_iff. rewrite !Z.ltb_ge. lia.
Qed.

End PrecisionLoop.




Lemma decimals_of_line_for (line_no current : Z) :
  PiPrecision.decimals_of (PiPrecision.line_for line_no current) = current.
Proof.
  unfold PiPrecision.line_for. destruct (Z.eqb_spec current 0) as [-> | _]; reflexivity.
Qed.

Lemma line_no_of_line_for (line_no current : Z) :
  PiPrecision.line_no_of (PiPrecision.line_for line_no current) = line_no.
Proof. unfold PiPrecision.line_for. destruct (current =? 0)%Z; reflexivity. Qed.

Lemma rev_countdown (n : nat) :
  rev (map Z.of_nat (seq 0 (S n))) =
  map (fun i : nat => (Z.of_nat n + Z.of_nat i * -1)%Z) (seq 0 (S n)).
Proof.
  induction n as [|n IH]; [reflexivity|].
  rewrite (seq_S (S n) 0) at 1. rewrite map_app, rev_app_distr. cbn [map rev app Nat.add].
  rewrite IH. change (seq 0 (S (S n))) with (O :: seq 1 (S n)).
  rewrite <- seq_shift, map_cons, map_map. f_equal; try lia.
  apply map_ext. intros i. lia.
Qed.

(** X15.  The two files of the program, for [max_decimal_places = m] within
    the cap that [main] applies ([0 <= m <= 15]): the ascending one
    ([0, m, +1]) and the descending one ([m, 0, -1]) are both written
    without error and hold [m + 1] lines each, numbered alike; the ascending
    file shows 0, 1, ..., m decimals and the descending file the same counts
    in reverse order. *)
Theorem ascending_descending_files (m : Z) :
  (0 <= m <= 15)%Z ->
  let asc := PiPrecision.write_precision_file 0 m 1 in
  let desc := PiPrecision.write_precision_file m 0 (-1) in
  snd asc = None /\ snd desc = None /\
  Z.of_nat (length (fst asc)) = (m + 1)%Z /\
  Z.of_nat (length (fst desc)) = (m + 1)%Z /\
  map PiPrecision.line_no_of (fst desc) = map PiPrecision.line_no_of (fst asc) /\
  map PiPrecision.decimals_of (fst asc) = map Z.of_nat (seq 0 (Z.to_nat (m + 1))) /\
  map PiPrecision.decimals_of (fst desc) = rev (map PiPrecision.decimals_of (fst asc)).
Proof.
  intros Hm asc desc.
  assert (Hasc_eq : asc =
            (map (fun i : nat => PiPrecision.line_for (1 + Z.of_nat i) (0 + Z.of_nat i * 1))
               (seq 0 (Z.to_nat (m + 1))), None)).
  { unfold asc, PiPrecision.write_precision_file. apply write_loop_lines.
    - lia.
    - intros i Hi. split; [apply continues_true|]; unfold PiPrecision.INT_MAX; lia.
    - apply continues_false. lia. }
  assert (Hdesc_eq : desc =
            (map (fun i : nat => PiPrecision.line_for (1 + Z.of_nat i) (m + Z.of_nat i * -1))
               (seq 0 (Z.to_nat (m + 1))), None)).
  { unfold desc, PiPrecision.write_precision_file. apply write_loop_lines.
    - lia.
    - intros i Hi. split; [apply continues_true|]; unfold PiPrecision.INT_MAX; lia.
    - apply continues_false. lia. }
  rewrite Hasc_eq, Hdesc_eq. clear Hasc_eq Hdesc_eq asc desc.
  cbn [fst snd]. rewrite !length_map, !length_seq, !map_map.
  assert (Hasc : map (fun i : nat => PiPrecision.decimals_of
                        (PiPrecision.line_for (1 + Z.of_nat i) (0 + Z.of_nat i * 1)))
                   (seq 0 (Z.to_nat (m + 1))) =
                 map Z.of_nat (seq 0 (Z.to_nat (m + 1)))).
  { apply map_ext. intros i. rewrite decimals_of_line_for. lia. }
  repeat split; try lia.
  - apply map_ext. intros i. rewrite !line_no_of_line_for. reflexivity.
  - exact Hasc.
  - rewrite Hasc. replace (Z.to_nat (m + 1)) with (S (Z.to_nat m)) by lia.
    rewrite rev_countdown, Z2Nat.id by lia.
    apply map_ext. intros i. apply decimals_of_line_for.
Qed.

Lemma ascending_descending_files_witness :
  (0 <= 14 <= 15)%Z /\
  let asc := PiPrecision.write_precision_file 0 14 1 in
  let desc := PiPrecision.write_precision_file 14 0 (-1) in
  snd asc = None /\ snd desc = None /\
  Z.of_nat (length (fst asc)) = (14 + 1)%Z /\
  Z.of_nat (length (fst desc)) = (14 + 1)%Z /\
  map PiPrecision.line_no_of (fst desc) = map PiPrecision.line_no_of (fst asc) /\
  map PiPrecision.decimals_of (fst asc) = map Z.of_nat (seq 0 (Z.to_nat (14 + 1))) /\
  map PiPrecision.decimals_of (fst desc) = rev (map PiPrecision.decimals_of (fst asc)).
Proof. split; [lia | apply (ascending_descending_files 14); lia]. Defined.

(** * The file names of the renaming script *)

Section StringTests.

Local Open Scope string_scope.

Lemma prefix_append (p s : string) : String.prefix p (p ++ s) = true.
Proof.
  induction p as [|c p IH]; [destruct s; reflexivity|].
  simpl. destruct (ascii_dec c c) as [_ | Hne]; [exact IH | congruence].
Qed.

Lemma contains_of_prefix (sub s : string) :
  String.prefix sub s = true -> RenameRam.contains sub s = true.
Proof. destruct s; simpl; intros ->; reflexivity. Qed.

Lemma contains_prefix (sub s : string) : RenameRam.contains sub (sub ++ s) = true.
Proof. apply contains_of_prefix, prefix_append. Qed.

Lemma contains_append (sub a s : string) :
  RenameRam.contains sub s = true -> RenameRam.contains sub (a ++ s) = true.
Proof.
  intros H. induction a as [|c a IH]; [exact H|].
  simpl. rewrite IH. apply orb_true_r.
Qed.

Lemma endswith_refl (s : string) : RenameRam.endswith s s = true.
Proof. destruct s; cbn [RenameRam.endswith]; rewrite String.eqb_refl; reflexivity. Qed.

Lemma endswith_append (a s suffix : string) :
  RenameRam.endswith s suffix = true -> RenameRam.endswith (a ++ s) suffix = true.
Proof.
  intros H. induction a as [|c a IH]; [exact H|].
  simpl. rewrite IH. apply orb_true_r.
Qed.

Lemma substring_append (a b : string) :
  String.substring 0 (String.length a) (a ++ b) = a.
Proof.
  induction a as [|c a IH]; simpl.
  - destruct b; reflexivity.
  - rewrite IH. reflexivity.
Qed.

Lemma length_append (a b : string) :
  String.length (a ++ b) = (String.length a + String.length b)%nat.
Proof. induction a as [|c a IH]; simpl; [reflexivity | rewrite IH; reflexivity]. Qed.

End StringTests.

(** X16.  Renaming is idempotent: every name that
    [generate_target_filename] produces passes the test by which [main]
    skips files already renamed, so a second run leaves it alone. *)
Theorem target_name_follows_pattern
    (original_name : string) (freq depth : QArith_base.Q) :
  RenameRam.follows_pattern
    (RenameRam.generate_target_filename original_name freq depth) = true.
Proof.
  unfold RenameRam.generate_target_filename, RenameRam.follows_pattern,
    RenameRam.startswith.
  cbv zeta.
  set (base_name := if RenameRam.endswith original_name ".in"
                    then RenameRam.drop_last3 original_name else original_name).
  set (depth_str := RenameRam.format_0d 4 (RenameRam.py_int depth)).
  set (freq_str := RenameRam.format_0d 5 (RenameRam.py_int freq)).
  rewrite prefix_append.
  rewrite (contains_append "_d" "ram_"), (contains_append "_f" "ram_").
  - rewrite (endswith_append "ram_"); [reflexivity|].
    do 5 apply endswith_append. apply endswith_refl.
  - do 3 apply contains_append. apply contains_prefix.
  - apply contains_append. apply contains_prefix.
Qed.

(** X17.  The extension is taken off once and put back once: for a file
    [base.in] the target name is [ram_base_d<depth>_f<freq>.in], with the
    depth and the frequency cut to integers and padded to 4 and 5 digits. *)
Theorem target_name_of_in_file (base : string) (freq depth : QArith_base.Q) :
  RenameRam.generate_target_filename (base ++ ".in") freq depth =
    ("ram_" ++ base ++ "_d" ++ RenameRam.format_0d 4 (RenameRam.py_int depth) ++
     "_f" ++ RenameRam.format_0d 5 (RenameRam.py_int freq) ++ ".in")%string.
Proof.
  unfold RenameRam.generate_target_filename. cbv zeta.
  rewrite (endswith_append base ".in" ".in" (endswith_refl ".in")).
  unfold RenameRam.drop_last3. rewrite length_append.
  replace (String.length base + String.length ".in" - 3)%nat
    with (String.length base) by (simpl String.length; lia).
  rewrite substring_append. reflexivity.
Qed.

(** * The acoustic code on binary64 *)

(** ** The double nearest to PI/2 *)

(** Nineteen and twenty terms of Machin's series
    [PI/4 = 2 atan(1/3) + atan(1/7)] enclose PI between twice
    [half_pi_binary64] and the next multiple of [2^-52]. *)
Lemma PI_above_binary64 : 2 * half_pi_binary64 < PI.
Proof.
  unfold half_pi_binary64.
  pose proof (PI_2_3_7_ineq 9) as [Hlo _].
  change (S (2 * 9)) with 19%nat in Hlo.
  unfold PI_2_3_7_tg, tg_alt, Ratan_seq in Hlo.
  cbn [sum_f_R0 Nat.mul Nat.add] in Hlo.
  simpl INR in Hlo.
  lra.
Qed.

Lemma PI_below_next_binary64 : PI < 2 * half_pi_binary64 + / 2 ^ 52.
Proof.
  unfold half_pi_binary64.
  pose proof (PI_2_3_7_ineq 9) as [_ Hhi].
  change (2 * 9)%nat with 18%nat in Hhi.
  unfold PI_2_3_7_tg, tg_alt, Ratan_seq in Hhi.
  cbn [sum_f_R0 Nat.mul Nat.add] in Hhi.
  simpl INR in Hhi.
  lra.
Qed.

(** [half_pi_binary64] is below PI/2 by less than half the spacing [2^-52]
    of the doubles between 1 and 2: it is the double nearest to PI/2. *)
Lemma half_pi_binary64_nearest :
  half_pi_binary64 < PI / 2 < half_pi_binary64 + / 2 ^ 53.
Proof.
  pose proof PI_above_binary64. pose proof PI_below_next_binary64. lra.
Qed.

(** It is the value of [np.pi / 2], and [main] computes the same double for
    90 degrees. *)
Lemma np_pi_half_is_half_pi_binary64 :
  Prim2SF (B64.np_pi / 2)%float = S754_finite false 7074237752028440 (-52).
Proof. reflexivity. Qed.

Lemma ninety_degrees_is_np_pi_half :
  (90 * B64.DEG_TO_RAD)%float = (B64.np_pi / 2)%float.
Proof. reflexivity. Qed.

Lemma cos_half_pi_binary64_pos : 0 < cos half_pi_binary64 < 1.
Proof.
  pose proof half_pi_binary64_nearest as [Hlt _].
  assert (Hpos : 0 < half_pi_binary64) by (unfold half_pi_binary64; lra).
  split.
  - apply cos_gt_0; lra.
  - apply cos_lt_1; lra.
Qed.

(** C9, at the input the program has.  For the launch angle [np.pi / 2]
    the cosine is positive, the effective radius is positive, and the solver
    returns a valid result with a positive range for every source radius
    [0 < r_source <= r_earth]: the guard [r_effective <= 0] does not catch
    the beam that points straight down. *)
Theorem straight_down_binary64_valid (r_source r_earth : R) :
  0 < r_source <= r_earth ->
  0 < r_source * cos half_pi_binary64 /\
  valid (calculate_surface_intersection r_source half_pi_binary64 r_earth) /\
  0 < fst (calculate_surface_intersection r_source half_pi_binary64 r_earth).
Proof.
  intros Hs. pose proof cos_half_pi_binary64_pos as [Hc0 Hc1].
  assert (Heff : 0 < r_source * cos half_pi_binary64 <= r_earth).
  { split; [apply Rmult_lt_0_compat; lra|].
    apply Rle_trans with (r_source * 1); [apply Rmult_le_compat_l|]; lra. }
  assert (Hlt : r_source * cos half_pi_binary64 < r_earth).
  { apply Rlt_le_trans with (r_source * 1); [apply Rmult_lt_compat_l|]; lra. }
  split; [apply Heff|].
  rewrite (solver_intersection _ _ _ Heff). unfold valid. cbn [fst].
  pose proof (ratio_bounds _ _ Heff) as Hratio.
  assert (Hr1 : r_source * cos half_pi_binary64 / r_earth < 1).
  { destruct (Req_dec (r_source * cos half_pi_binary64 / r_earth) 1) as [E | NE]; [|lra].
    apply ratio_eq_1 in E; lra. }
  pose proof (acos_bound_lt (r_source * cos half_pi_binary64 / r_earth) ltac:(lra))
    as [Hacos _].
  assert (0 < r_earth * acos (r_source * cos half_pi_binary64 / r_earth))
    by (apply Rmult_lt_0_compat; lra).
  split; lra.
Qed.

Lemma straight_down_binary64_valid_witness :
  0 < 1 <= 2 /\
  0 < 1 * cos half_pi_binary64 /\
  valid (calculate_surface_intersection 1 half_pi_binary64 2) /\
  0 < fst (calculate_surface_intersection 1 half_pi_binary64 2).
Proof.
  assert (Hs : 0 < 1 <= 2) by lra.
  split; [exact Hs | exact (straight_down_binary64_valid 1 2 Hs)].
Defined.

(** ** Rounding *)

Section Binary64.

Local Open Scope float_scope.


(** The exact cases can be met: there are libraries to quantify over. *)
Lemma Libm_inhabited : inhabited B64.Libm.
Proof.
  constructor.
  exact (B64.mkLibm (fun _ => 1) (fun _ => 0) (fun _ => 0) (fun _ _ => 0)
           eq_refl eq_refl eq_refl).
Qed.


End Binary64.


